(** * GPy.kern._src.coregionalize: the coregionalization kernel

    A shallow embedding of [Coregionalize] (src/GPy/kern/_src/coregionalize.py)
    and the properties its specification states about it.

    Conventions of the embedding.
    - float64 values are idealised as exact rationals ([Qc], rationals in
      lowest terms, so that equality is Leibniz equality and every
      definition computes).  Rounding is therefore not modelled.
    - An (n, m) ndarray is the list of its n rows; a C-contiguous buffer is
      the concatenation of the rows.  The arrays the kernel allocates itself
      (B, the targets, the reduced gradient) and the converted index arrays
      are C-contiguous.  The upstream gradient dL_dK is the caller's array and is
      handed to the inlined C code as it is: it is an [ndarray], the values
      numpy sees together with the memory the C code indexes.  Where numpy
      reads the shape of W the model reads [output_dim] and [rank], the shape
      [__init__] asserts.
    - Index vectors: every method converts X and X2 with
      [np.asarray(., dtype=np.int)] before it uses them.  The arguments X, X2
      of the methods below are the columns of the converted (n, 1) arrays,
      kept as a [list Z] of int64 values.  The conversion itself is
      [Numpy.asarray_int]; what the methods do with the labels of a caller
      whose integers need not fit is stated through it.
    - X and X2 are ndarrays, as the methods require ([X.shape] is read); a
      call with another Python sequence is outside the model.
    - Python exceptions and C undefined behaviour are results of their own
      ([Raise], [Undefined]).
    - The loop counters of the inlined C code are unbounded integers; the
      model does not speak about buffers of 2^31 cells or more. *)

From Stdlib Require Import String.
From Stdlib Require Import List ZArith QArith Qcanon Lia Lqa Bool.
Import ListNotations.

Set Implicit Arguments.
Close Scope Qc_scope.
Close Scope Q_scope.
Open Scope nat_scope.

(* ------------------------------------------------------------------ *)
(** * Scalars, vectors, matrices *)

Abbreviation scalar := Qc (only parsing).
Abbreviation vec := (list Qc) (only parsing).
Abbreviation matrix := (list (list Qc)) (only parsing).

Definition half : scalar := Q2Qc (1 # 2)%Q.
Definition two : scalar := Q2Qc 2%Q.

(** [ndarray.sum()] of a 1-D array, and of a 2-D array (all entries). *)
Definition vsum (v : vec) : scalar := fold_right Qcplus 0%Qc v.
Definition msum (M : matrix) : scalar := vsum (concat M).

(** [M[i, j]] for indices already known to be in range. *)
Definition entry (M : matrix) (i j : nat) : scalar := nth j (nth i M []) 0%Qc.

(** [M.shape == (r, c)]. *)
Definition has_shape (M : matrix) (r c : nat) : Prop :=
  length M = r /\ Forall (fun row => length row = c) M.

Definition shape_eqb (M : matrix) (r c : nat) : bool :=
  Nat.eqb (length M) r && forallb (fun row => Nat.eqb (length row) c) M.

(** Decidable equality of arrays, to compare computed values. *)
Definition vec_eqb (u v : vec) : bool :=
  Nat.eqb (length u) (length v) &&
  forallb (fun p => Qc_eq_bool (fst p) (snd p)) (combine u v).

Definition matrix_eqb (M N : matrix) : bool :=
  Nat.eqb (length M) (length N) &&
  forallb (fun p => vec_eqb (fst p) (snd p)) (combine M N).

(* ------------------------------------------------------------------ *)
(** * Results of Python and C code *)

Inductive exn : Type := IndexError | AssertionError | WeaveError.

Inductive outcome (A : Type) : Type :=
| Ok (a : A)          (* normal return *)
| Raise (e : exn)     (* a Python exception propagates *)
| Undefined.          (* the inlined C code leaves its buffers *)

Arguments Ok {A} a.
Arguments Raise {A} e.
Arguments Undefined {A}.

Definition bind {A B : Type} (c : outcome A) (k : A -> outcome B) : outcome B :=
  match c with
  | Ok a => k a
  | Raise e => Raise e
  | Undefined => Undefined
  end.

Notation "x <- c ;; k" := (bind c (fun x => k))
  (at level 61, c at next level, right associativity).

Fixpoint mapM {A B : Type} (f : A -> outcome B) (l : list A) : outcome (list B) :=
  match l with
  | [] => Ok []
  | a :: t => b <- f a ;; bs <- mapM f t ;; Ok (b :: bs)
  end.

(** A loop over [0, n) that threads a state: [for i in range(n)] in Python,
    [for(int i=0; i<n; i++)] in C.  It stops at the first iteration that does
    not return normally. *)
Definition for_ {S : Type} (n : nat) (body : nat -> S -> outcome S) (s : S)
  : outcome S :=
  fold_left (fun acc i => bind acc (body i)) (seq 0 n) (Ok s).

(** The list [buf] with cell [k] overwritten (unchanged when there is no
    such cell; the callers check the range first). *)
Fixpoint upd {A : Type} (k : nat) (v : A) (buf : list A) : list A :=
  match buf, k with
  | [], _ => []
  | _ :: t, O => v :: t
  | x :: t, S k' => x :: upd k' v t
  end.

(* ------------------------------------------------------------------ *)
(** * The numpy operations the kernel uses *)

Module Numpy.

(** An integer used as an index along an axis of length [n]: negative values
    count from the end, anything outside [-n, n) is an IndexError. *)
Definition normalize_index (n : nat) (v : Z) : outcome nat :=
  if ((0 <=? v) && (v <? Z.of_nat n))%Z then Ok (Z.to_nat v)
  else if ((- Z.of_nat n <=? v) && (v <? 0))%Z then Ok (Z.to_nat (Z.of_nat n + v))
  else Raise IndexError.

Definition shape1 (M : matrix) : nat :=
  match M with [] => 0 | row :: _ => length row end.

(** [M[r, c]] for integers r, c. *)
Definition getitem2 (M : matrix) (r c : Z) : outcome scalar :=
  i <- normalize_index (length M) r ;;
  j <- normalize_index (shape1 M) c ;;
  Ok (entry M i j).

(** [M[index, index2.T]] with index of shape (n1, 1) and index2.T of shape
    (1, n2): the two index arrays broadcast to (n1, n2) and every cell of the
    result is gathered from M. *)
Definition fancy_index2 (M : matrix) (index index2 : list Z) : outcome matrix :=
  mapM (fun r => mapM (fun c => getitem2 M r c) index2) index.

(** [v[index]] for a 1-D array v and a 1-D integer array. *)
Definition fancy_index1 (v : vec) (index : list Z) : outcome vec :=
  mapM (fun r => i <- normalize_index (length v) r ;; Ok (nth i v 0%Qc)) index.

(** [numpy.diagonal(M)], the values of the main diagonal. *)
Definition diagonal (M : matrix) : vec :=
  map (fun i => entry M i i) (seq 0 (Nat.min (length M) (shape1 M))).

(** [np.diag(v)] for a 1-D array: the square matrix with v on its diagonal. *)
Definition diagflat (v : vec) : matrix :=
  map (fun i => map (fun j => if Nat.eqb i j then nth i v 0%Qc else 0%Qc)
                    (seq 0 (length v)))
      (seq 0 (length v)).

(** [M.T] for M of shape (_, c). *)
Definition transpose (c : nat) (M : matrix) : matrix :=
  map (fun j => map (fun row => nth j row 0%Qc) M) (seq 0 c).

Definition vdot (u v : vec) : scalar :=
  vsum (map (fun p => (fst p * snd p)%Qc) (combine u v)).

(** [np.dot(M, N)] for N of shape (_, c). *)
Definition dot (c : nat) (M N : matrix) : matrix :=
  map (fun row => map (fun j => vdot row (map (fun nrow => nth j nrow 0%Qc) N))
                      (seq 0 c)) M.

(** [M + N] for arrays of one shape. *)
Definition vadd (u v : vec) : vec :=
  map (fun p => (fst p + snd p)%Qc) (combine u v).
Definition madd (M N : matrix) : matrix :=
  map (fun p => vadd (fst p) (snd p)) (combine M N).

(** [np.zeros_like(M)]. *)
Definition zeros_like (M : matrix) : matrix := map (map (fun _ => 0%Qc)) M.

(** [M[r, c] = v] for loop counters r, c. *)
Definition setitem2 (M : matrix) (r c : nat) (v : scalar) : outcome matrix :=
  if Nat.ltb r (length M) && Nat.ltb c (shape1 M)
  then Ok (upd r (upd c v (nth r M [])) M)
  else Raise IndexError.

(** [a[mask]] for a boolean mask over the first axis. *)
Definition mask_select {A : Type} (mask : list bool) (a : list A) : list A :=
  map snd (filter fst (combine mask a)).

(** [index == i] for an integer array and the loop variable i. *)
Definition eq_mask (index : list Z) (i : nat) : list bool :=
  map (fun v => Z.eqb v (Z.of_nat i)) index.

(** The value an integer has as [np.int], the C long of 64 bits: a value of
    the range [-2^63, 2^63) is kept, any other wraps around (so the uint64
    value 2^64 - 1 becomes -1). *)
Definition int64 (v : Z) : Z := ((v + 2 ^ 63) mod 2 ^ 64 - 2 ^ 63)%Z.

(** [np.asarray(X, dtype=np.int)] for an integer array X. *)
Definition asarray_int (X : list Z) : list Z := map int64 X.

End Numpy.

(** An array the caller hands over, as the kernel receives it.  numpy reads
    an array through its shape and strides: [values] is what it sees.
    [weave.inline] gives the C code the data pointer, and the code indexes
    the memory behind it cell by cell: [raw] is that memory.  The two agree
    for a C-contiguous array; for a Fortran-ordered array, a transposed view
    or a strided slice they do not. *)
Record ndarray : Type := mk_ndarray {
  values : matrix;
  raw : vec
}.

Definition c_contiguous (a : ndarray) : Prop := raw a = concat (values a).

(** [np.array(M)]: a new array, laid out row by row. *)
Definition np_array (M : matrix) : ndarray :=
  {| values := M; raw := concat M |}.


(* ------------------------------------------------------------------ *)
(** * The C fragments run by [weave.inline] *)

Module Weave.

(** Buffers are flat; an access outside the buffer is undefined. *)
Definition in_buffer {A : Type} (buf : list A) (k : Z) : bool :=
  ((0 <=? k) && (k <? Z.of_nat (length buf)))%Z.

Definition load {A : Type} (d : A) (buf : list A) (k : Z) : outcome A :=
  if in_buffer buf k then Ok (nth (Z.to_nat k) buf d) else Undefined.

Definition store {A : Type} (buf : list A) (k : Z) (v : A) : outcome (list A) :=
  if in_buffer buf k then Ok (upd (Z.to_nat k) v buf) else Undefined.

(** The (r, c) array over a C-contiguous buffer. *)
Definition reshape (r c : nat) (buf : vec) : matrix :=
  map (fun i => firstn c (skipn (i * c) buf)) (seq 0 r).

Definition zi (n : nat) : Z := Z.of_nat n.

(** The body of [_K_weave] when X2 is None (lines 86-92). *)
Definition K_code_symmetric (N : nat) (output_dim : nat) (index : list Z)
    (B : vec) (target : vec) : outcome vec :=
  for_ N (fun i target =>
    xi <- load 0%Z index (zi i) ;;
    b <- load 0%Qc B (xi + zi output_dim * xi)%Z ;;
    target <- store target (zi i + zi i * zi N)%Z b ;;
    for_ i (fun j target =>
      xi <- load 0%Z index (zi i) ;;
      xj <- load 0%Z index (zi j) ;;
      b <- load 0%Qc B (xi + zi output_dim * xj)%Z ;;
      target <- store target (zi j + zi i * zi N)%Z b ;;
      t <- load 0%Qc target (zi j + zi i * zi N)%Z ;;
      store target (zi i + zi j * zi N)%Z t) target) target.

(** The body of [_K_weave] when X2 is given (lines 100-104). *)
Definition K_code_general (N num_inducing : nat) (output_dim : nat)
    (index index2 : list Z) (B : vec) (target : vec) : outcome vec :=
  for_ num_inducing (fun i target =>
    for_ N (fun j target =>
      xj <- load 0%Z index (zi j) ;;
      x2i <- load 0%Z index2 (zi i) ;;
      b <- load 0%Qc B (zi output_dim * xj + x2i)%Z ;;
      store target (zi i + zi j * zi num_inducing)%Z b) target) target.

(** The body of [_gradient_reduce_weave] (lines 144-148). *)
Definition gradient_reduce_code (N num_inducing : nat) (output_dim : nat)
    (index index2 : list Z) (dL_dK : vec) (dL_dK_small : vec) : outcome vec :=
  for_ num_inducing (fun i dL_dK_small =>
    for_ N (fun j dL_dK_small =>
      xj <- load 0%Z index (zi j) ;;
      x2i <- load 0%Z index2 (zi i) ;;
      g <- load 0%Qc dL_dK (zi i + zi j * zi num_inducing)%Z ;;
      old <- load 0%Qc dL_dK_small (xj + zi output_dim * x2i)%Z ;;
      store dL_dK_small (xj + zi output_dim * x2i)%Z (old + g)%Qc)
      dL_dK_small) dL_dK_small.

End Weave.

(* ------------------------------------------------------------------ *)
(** * The kernel *)

(** The kernel object: the two parameters, the cached matrix B, and the
    gradient slots of the two parameters. *)
Record Coregionalize : Type := mkCoregionalize {
  output_dim : nat;
  rank : nat;
  W : matrix;
  kappa : vec;
  B : matrix;
  W_gradient : matrix;
  kappa_gradient : vec
}.

(** The process-wide state the kernel reads and writes: the ('weave',
    'working') entry of the configuration, and how often [weave.inline] has
    been called (the environment decides per call whether it succeeds). *)
Record process : Type := mkProcess {
  weave_working : bool;
  inline_calls : nat
}.

Definition config_set_working (b : bool) (p : process) : process :=
  {| weave_working := b; inline_calls := inline_calls p |}.

Definition rank_warning : string :=
  "Warning: Unusual choice of rank, it should normally be less than the output_dim.".

(** The scatter-reduce as the specification words it: the sum of
    [dL_dK[i,j]] over the pairs (i, j) with [X[i] = a] and [X2[j] = b]. *)
Definition scatter_sum (dL_dK : matrix) (X X2 : list Z) (a b : nat) : scalar :=
  vsum (map (fun i =>
    vsum (map (fun j =>
      if (Z.eqb (nth i X 0%Z) (Z.of_nat a) && Z.eqb (nth j X2 0%Z) (Z.of_nat b))%bool
      then entry dL_dK i j else 0%Qc) (seq 0 (length X2)))) (seq 0 (length X))).

(** The per-channel sums of the diagonal gradient as the specification words
    them: the sum of [dL_dKdiag[i]] over the i with [X[i] = a]. *)
Definition channel_sum (dL_dKdiag : vec) (X : list Z) (a : nat) : scalar :=
  vsum (map (fun i => if Z.eqb (nth i X 0%Z) (Z.of_nat a)
                      then nth i dL_dKdiag 0%Qc else 0%Qc) (seq 0 (length X))).


(** The quadratic form [x^T M x]. *)
Definition quadratic_form (M : matrix) (x : vec) : scalar :=
  Numpy.vdot x (map (fun row => Numpy.vdot row x) M).

(** [sum over k < n of f k]. *)
Definition bigsum (n : nat) (f : nat -> scalar) : scalar :=
  vsum (map f (seq 0 n)).

(** All entries of an index vector lie in [0, output_dim). *)
Definition in_range (D : nat) (X : list Z) : Prop :=
  Forall (fun v => (0 <= v < Z.of_nat D)%Z) X.

Section Kernel.

(** The environment: whether the n-th call of [weave.inline] in this process
    succeeds, what an [np.empty] buffer holds before it is written, and the
    draws [0.5*randn(output_dim, rank)/sqrt(rank)] of the constructor. *)
Variable compiles : nat -> bool.
Variable uninitialised : nat -> scalar.
Variable random_W : nat -> nat -> scalar.

(** [weave.inline(code, ...)]: runs the C code, or raises. *)
Definition inline {A : Type} (code : outcome A) (p : process)
  : outcome A * process :=
  let p' := {| weave_working := weave_working p;
               inline_calls := S (inline_calls p) |} in
  if compiles (inline_calls p) then (code, p') else (Raise WeaveError, p').

(** [Coregionalize.__init__] (lines 38-54): what it prints, and the object
    or the AssertionError of a failed shape assertion.  B is only set by
    [parameters_changed]. *)
Definition __init__ (input_dim output_dim rank : nat)
    (W : option matrix) (kappa : option vec)
  : list string * outcome Coregionalize :=
  (if Nat.ltb output_dim rank then [rank_warning] else [],
   W <- match W with
        | None => Ok (map (fun i => map (random_W i) (seq 0 rank))
                          (seq 0 output_dim))
        | Some W => if shape_eqb W output_dim rank then Ok W
                    else Raise AssertionError
        end ;;
   kappa <- match kappa with
            | None => Ok (map (fun one => (half * one)%Qc)
                              (repeat 1%Qc output_dim))
            | Some kappa => if Nat.eqb (length kappa) output_dim then Ok kappa
                            else Raise AssertionError
            end ;;
   Ok {| output_dim := output_dim; rank := rank; W := W; kappa := kappa;
         B := [];
         W_gradient := Numpy.zeros_like W;
         kappa_gradient := map (fun _ => 0%Qc) kappa |}).

(** [parameters_changed] (line 57). *)
Definition parameters_changed (self : Coregionalize) : Coregionalize :=
  {| output_dim := output_dim self; rank := rank self;
     W := W self; kappa := kappa self;
     B := Numpy.madd
            (Numpy.dot (output_dim self) (W self)
                       (Numpy.transpose (rank self) (W self)))
            (Numpy.diagflat (kappa self));
     W_gradient := W_gradient self; kappa_gradient := kappa_gradient self |}.

(** [_K_numpy] (lines 71-77), on the converted index arrays. *)
Definition _K_numpy (self : Coregionalize) (X : list Z) (X2 : option (list Z))
  : outcome matrix :=
  let index := X in
  match X2 with
  | None => Numpy.fancy_index2 (B self) index index
  | Some X2 => let index2 := X2 in Numpy.fancy_index2 (B self) index index2
  end.

(** [_K_weave] (lines 79-108), on the converted index arrays.  [target],
    [index], [index2] and [B] are arrays of the kernel's own. *)
Definition _K_weave (self : Coregionalize) (X : list Z) (X2 : option (list Z))
    (p : process) : outcome matrix * process :=
  let index := X in
  match X2 with
  | None =>
      let target := map uninitialised (seq 0 (length X * length X)) in
      let N := length index in
      let (r, p') :=
        inline (Weave.K_code_symmetric N (output_dim self) index
                  (concat (B self)) target) p in
      (target <- r ;; Ok (Weave.reshape (length X) (length X) target), p')
  | Some X2 =>
      let index2 := X2 in
      let target := map uninitialised (seq 0 (length X * length X2)) in
      let N := length index in
      let num_inducing := length index2 in
      let (r, p') :=
        inline (Weave.K_code_general N num_inducing (output_dim self)
                  index index2 (concat (B self)) target) p in
      (target <- r ;; Ok (Weave.reshape (length X) (length X2) target), p')
  end.

(** [K] (lines 59-68).  The bare [except:] catches every exception; the
    message it prints is not part of the model.  X and X2 being ndarrays,
    the statements of [_K_weave] before [weave.inline] do not fail, and the
    exception caught here is that of [weave.inline]. *)
Definition K (self : Coregionalize) (X : list Z) (X2 : option (list Z))
    (p : process) : outcome matrix * process :=
  if weave_working p then
    match _K_weave self X X2 p with
    | (Raise _, p') => (_K_numpy self X X2, config_set_working false p')
    | r => r
    end
  else (_K_numpy self X X2, p).

(** [Kdiag] (line 112), on the converted index array. *)
Definition Kdiag (self : Coregionalize) (X : list Z) : outcome vec :=
  Numpy.fancy_index1 (Numpy.diagonal (B self)) X.

(** [_gradient_reduce_weave] (lines 141-152).  [dL_dK] is the caller's
    array, passed on to [weave.inline] untouched: the loop reads the memory
    behind it at [i + j*num_inducing], whatever its strides are. *)
Definition _gradient_reduce_weave (self : Coregionalize) (dL_dK : ndarray)
    (index index2 : list Z) (p : process) : outcome matrix * process :=
  let dL_dK_small := Numpy.zeros_like (B self) in
  let N := length index in
  let num_inducing := length index2 in
  let (r, p') :=
    inline (Weave.gradient_reduce_code N num_inducing (output_dim self)
              index index2 (raw dL_dK) (concat dL_dK_small)) p in
  (buf <- r ;;
   Ok (Weave.reshape (length (B self)) (Numpy.shape1 (B self)) buf), p').

(** [_gradient_reduce_numpy] (lines 154-161).  The masks and the sum go
    through numpy's indexing: they depend on the values of dL_dK only. *)
Definition _gradient_reduce_numpy (self : Coregionalize) (dL_dK : matrix)
    (index index2 : list Z) : outcome matrix :=
  let dL_dK_small := Numpy.zeros_like (B self) in
  for_ (output_dim self) (fun i dL_dK_small =>
    let tmp1 := Numpy.mask_select (Numpy.eq_mask index i) dL_dK in
    for_ (output_dim self) (fun j dL_dK_small =>
      Numpy.setitem2 dL_dK_small j i
        (msum (map (Numpy.mask_select (Numpy.eq_mask index2 j)) tmp1)))
      dL_dK_small) dL_dK_small.

(** [update_gradients_full] (lines 114-139), on the converted index arrays.

    Line 134 takes [np.diag(dL_dK_small)]: for a 2-D array this is
    [numpy.diagonal], which since numpy 1.9 is a read-only view of the
    array and not a copy.  Line 135 then adds the transpose in place, into
    the same buffer.  [dkappa] is therefore modelled as a view: it has no
    data of its own and is read from the buffer as it stands when line 139
    stores it. *)
Definition update_gradients_full (self : Coregionalize) (dL_dK : ndarray)
    (X : list Z) (X2 : option (list Z)) (p : process)
  : outcome Coregionalize * process :=
  let index := X in
  let index2 := match X2 with None => index | Some X2 => X2 end in
  let (reduced, p') :=
    if weave_working p then
      match _gradient_reduce_weave self dL_dK index index2 p with
      | (Raise _, p') =>
          _gradient_reduce_weave self dL_dK index index2
            (config_set_working false p')
      | r => r
      end
    else (_gradient_reduce_numpy self (values dL_dK) index index2, p) in
  (dL_dK_small <- reduced ;;
   let dkappa : matrix -> vec := Numpy.diagonal in
   let dL_dK_small :=
     Numpy.madd dL_dK_small
       (Numpy.transpose (Numpy.shape1 dL_dK_small) dL_dK_small) in
   let dW :=
     map (fun r => map (fun k =>
       vsum (map (fun c => (entry (W self) c k * entry dL_dK_small c r)%Qc)
                 (seq 0 (length (W self)))))
       (seq 0 (rank self))) (seq 0 (Numpy.shape1 dL_dK_small)) in
   Ok {| output_dim := output_dim self; rank := rank self;
         W := W self; kappa := kappa self; B := B self;
         W_gradient := dW;
         kappa_gradient := dkappa dL_dK_small |}, p').

(** [update_gradients_diag] (lines 163-167), on the converted index array. *)
Definition update_gradients_diag (self : Coregionalize) (dL_dKdiag : vec)
    (X : list Z) : Coregionalize :=
  let index := X in
  let dL_dKdiag_small :=
    map (fun i => vsum (Numpy.mask_select (Numpy.eq_mask index i) dL_dKdiag))
        (seq 0 (output_dim self)) in
  {| output_dim := output_dim self; rank := rank self;
     W := W self; kappa := kappa self; B := B self;
     W_gradient :=
       map (fun p => map (fun w => (two * w * snd p)%Qc) (fst p))
           (combine (W self) dL_dKdiag_small);
     kappa_gradient := dL_dKdiag_small |}.

End Kernel.

(** The shapes [__init__] asserts for W and kappa. *)
Definition well_shaped (self : Coregionalize) : Prop :=
  has_shape (W self) (output_dim self) (rank self) /\
  length (kappa self) = output_dim self.

(** B is what [parameters_changed] computes from the current W and kappa. *)
Definition synced (self : Coregionalize) : Prop :=
  B self = B (parameters_changed self).

(** The column index of a call: X2, or X when X2 is None. *)
Definition second_index (X : list Z) (X2 : option (list Z)) : list Z :=
  match X2 with None => X | Some X2 => X2 end.

(** The position a numpy index in [-n, n) reads: v itself, or n + v when v
    is negative. *)
Definition wrap (n : nat) (v : Z) : nat :=
  Z.to_nat (if (v <? 0)%Z then Z.of_nat n + v else v).

(* ------------------------------------------------------------------ *)
(** * Concrete kernels and inputs for the examples *)

Definition q (z : Z) : scalar := Q2Qc (inject_Z z).

Definition tenth : scalar := Q2Qc (1 # 10)%Q.

Definition new_kernel (D R : nat) (Wm : matrix) (k : vec) : Coregionalize :=
  parameters_changed
    {| output_dim := D; rank := R; W := Wm; kappa := k; B := [];
       W_gradient := Numpy.zeros_like Wm;
       kappa_gradient := map (fun _ => 0%Qc) k |}.

(** One output, W = [[1]], kappa = [0.5]. *)
Definition kernel_1 : Coregionalize := new_kernel 1 1 [[q 1]] [half].

(** Two outputs, W = [[1], [2]], kappa = [0.5, 0.5]. *)
Definition kernel_2 : Coregionalize :=
  new_kernel 2 1 [[q 1]; [q 2]] [half; half].

(** The scenario of the specification: three outputs, W = [[1], [0], [-1]],
    kappa = [0.1, 0.1, 0.1]. *)
Definition kernel_3 : Coregionalize :=
  new_kernel 3 1 [[q 1]; [q 0]; [q (-1)]] [tenth; tenth; tenth].

Definition always (b : bool) : nat -> bool := fun _ => b.
Definition junk : nat -> scalar := fun _ => q 7.

Definition fresh_process (working : bool) : process :=
  {| weave_working := working; inline_calls := 0 |}.

(* ------------------------------------------------------------------ *)
(** * Callers: the optimizer and the inference engine *)

(** The optimizer writes a parameter and the framework then notifies the
    kernel ([parameters_changed]). *)
Definition set_W (self : Coregionalize) (Wm : matrix) : Coregionalize :=
  parameters_changed
    {| output_dim := output_dim self; rank := rank self;
       W := Wm; kappa := kappa self; B := B self;
       W_gradient := W_gradient self; kappa_gradient := kappa_gradient self |}.

Definition set_kappa (self : Coregionalize) (k : vec) : Coregionalize :=
  parameters_changed
    {| output_dim := output_dim self; rank := rank self;
       W := W self; kappa := k; B := B self;
       W_gradient := W_gradient self; kappa_gradient := kappa_gradient self |}.

(** W with t added to the entry [r, k]; kappa with t added to entry a. *)
Definition W_plus (Wm : matrix) (r k : nat) (t : scalar) : matrix :=
  upd r (upd k (entry Wm r k + t)%Qc (nth r Wm [])) Wm.

Definition kappa_plus (kp : vec) (a : nat) (t : scalar) : vec :=
  upd a (nth a kp 0%Qc + t)%Qc kp.


(** A call of one of the two methods that read the acceleration flag. *)
Inductive call : Type :=
| Call_K (X : list Z) (X2 : option (list Z))
| Call_update_gradients_full (dL_dK : ndarray) (X : list Z) (X2 : option (list Z)).

Section Callers.

Variable compiles : nat -> bool.
Variable uninitialised : nat -> scalar.

(** One call: the kernel (with new gradients after a gradient call that
    returned) and the process state after it. *)
Definition run_call (c : call) (s : Coregionalize * process)
  : Coregionalize * process :=
  match c with
  | Call_K X X2 => (fst s, snd (K compiles uninitialised (fst s) X X2 (snd s)))
  | Call_update_gradients_full dL_dK X X2 =>
      match update_gradients_full compiles (fst s) dL_dK X X2 (snd s) with
      | (Ok self', p') => (self', p')
      | (_, p') => (fst s, p')
      end
  end.

(** A sequence of calls by a caller that catches whatever a call raises. *)
Definition run_calls (cs : list call) (s : Coregionalize * process)
  : Coregionalize * process :=
  fold_left (fun s c => run_call c s) cs s.

End Callers.

(** A result that is not an exception. *)
Definition no_raise {A : Type} (o : outcome A) : Prop := forall e, o <> Raise e.



(* ------------------------------------------------------------------ *)
(** * Lists, loops and sums *)

Section ListFacts.
Context {A : Type}.

Lemma nth_map_seq (f : nat -> A) (s n i : nat) (d : A) :
  i < n -> nth i (map f (seq s n)) d = f (s + i).
Proof.
  intros Hi.
  rewrite (nth_indep _ d (f 0)) by (rewrite length_map, length_seq; exact Hi).
  rewrite map_nth, seq_nth by exact Hi. reflexivity.
Qed.

Lemma map_nth_seq (l : list A) (d : A) :
  map (fun k => nth k l d) (seq 0 (length l)) = l.
Proof.
  apply (nth_ext _ _ d d).
  - now rewrite length_map, length_seq.
  - intros i Hi. rewrite length_map, length_seq in Hi.
    now rewrite nth_map_seq.
Qed.

Lemma length_upd (k : nat) (v : A) (l : list A) : length (upd k v l) = length l.
Proof.
  revert k; induction l as [|x t IH]; intros [|k]; simpl; auto.
Qed.

Lemma nth_upd_same (k : nat) (v d : A) (l : list A) :
  k < length l -> nth k (upd k v l) d = v.
Proof.
  revert k; induction l as [|x t IH]; intros [|k] Hk; simpl in *; try lia; auto.
  apply IH; lia.
Qed.

Lemma nth_upd_other (k k' : nat) (v d : A) (l : list A) :
  k <> k' -> nth k (upd k' v l) d = nth k l d.
Proof.
  revert k k'; induction l as [|x t IH]; intros [|k] [|k'] Hk; simpl;
    try reflexivity; try congruence.
  apply IH; congruence.
Qed.

Lemma nth_firstn_skipn (l : list A) (d : A) (s c i : nat) :
  i < c -> nth i (firstn c (skipn s l)) d = nth (s + i) l d.
Proof.
  intros Hi. rewrite nth_firstn.
  destruct (Nat.ltb_spec i c) as [_|]; [|lia].
  rewrite nth_skipn. reflexivity.
Qed.

End ListFacts.


Lemma Ok_inj {A : Type} (a b : A) : Ok a = Ok b -> a = b.
Proof. intros H. now inversion H. Qed.

Lemma mapM_ok {X Y : Type} (f : X -> outcome Y) (g : X -> Y) (l : list X) :
  (forall x, In x l -> f x = Ok (g x)) -> mapM f l = Ok (map g l).
Proof.
  induction l as [|a t IH]; intros H; simpl; [reflexivity|].
  rewrite (H a) by (left; reflexivity). simpl.
  rewrite IH by (intros; apply H; right; assumption).
  reflexivity.
Qed.

(* ------------------------------------------------------------------ *)
(** * Indexing *)


Lemma normalize_index_wrap (n : nat) (v : Z) :
  (- Z.of_nat n <= v < Z.of_nat n)%Z -> Numpy.normalize_index n v = Ok (wrap n v).
Proof.
  intros H. unfold Numpy.normalize_index, wrap.
  destruct (Z.ltb_spec v 0) as [Hneg|Hpos].
  - destruct (Z.leb_spec 0 v); [lia|]. simpl.
    destruct (Z.leb_spec (- Z.of_nat n) v); [|lia]. reflexivity.
  - destruct (Z.leb_spec 0 v); [|lia].
    destruct (Z.ltb_spec v (Z.of_nat n)); [|lia]. reflexivity.
Qed.

Lemma normalize_index_above (n : nat) (v : Z) :
  (Z.of_nat n <= v)%Z -> Numpy.normalize_index n v = Raise IndexError.
Proof.
  intros H. unfold Numpy.normalize_index.
  destruct (Z.ltb_spec v (Z.of_nat n)); [lia|].
  destruct (Z.ltb_spec v 0); [lia|].
  now rewrite !andb_false_r.
Qed.

Lemma normalize_index_cases (n : nat) (v : Z) :
  (exists k, Numpy.normalize_index n v = Ok k) \/
  Numpy.normalize_index n v = Raise IndexError.
Proof.
  unfold Numpy.normalize_index.
  destruct (_ && _); [left; eauto|]. destruct (_ && _); [left; eauto|]. now right.
Qed.

(** A traversal whose steps can only fail with one exception fails with it
    as soon as one step does. *)
Lemma mapM_raises {X Y : Type} (f : X -> outcome Y) (e : exn) (l : list X) (x : X) :
  (forall y, In y l -> (exists b, f y = Ok b) \/ f y = Raise e) ->
  In x l -> f x = Raise e -> mapM f l = Raise e.
Proof.
  induction l as [|a t IH]; intros Hall Hin Hx; [destruct Hin|].
  simpl. destruct (Hall a (or_introl eq_refl)) as [[b Hb]|Hb]; rewrite Hb; simpl;
    [|reflexivity].
  destruct Hin as [->|Hin]; [congruence|].
  rewrite IH; auto. intros; apply Hall; now right.
Qed.

Lemma mapM_cases {X Y : Type} (f : X -> outcome Y) (e : exn) (l : list X) :
  (forall y, In y l -> (exists b, f y = Ok b) \/ f y = Raise e) ->
  (exists bs, mapM f l = Ok bs) \/ mapM f l = Raise e.
Proof.
  induction l as [|a t IH]; intros Hall; simpl; [left; eauto|].
  destruct (Hall a (or_introl eq_refl)) as [[b Hb]|Hb]; rewrite Hb; simpl;
    [|now right].
  destruct IH as [[bs Hbs]|Hbs]; [intros; apply Hall; now right| |];
    rewrite Hbs; simpl; [left; eauto|now right].
Qed.

Lemma getitem2_cases (M : matrix) (r c : Z) :
  (exists b, Numpy.getitem2 M r c = Ok b) \/
  Numpy.getitem2 M r c = Raise IndexError.
Proof.
  unfold Numpy.getitem2.
  destruct (normalize_index_cases (length M) r) as [[i ->] | ->]; simpl; [|now right].
  destruct (normalize_index_cases (Numpy.shape1 M) c) as [[j ->] | ->]; simpl;
    [left; eauto|now right].
Qed.

Lemma shape1_shape (M : matrix) (r c : nat) :
  has_shape M r c -> 0 < r -> Numpy.shape1 M = c.
Proof.
  intros [Hl Hall] Hr. destruct M as [|row M]; simpl in *; [lia|].
  now inversion Hall.
Qed.

Lemma getitem2_wrap (M : matrix) (D : nat) (r c : Z) :
  has_shape M D D ->
  (- Z.of_nat D <= r < Z.of_nat D)%Z -> (- Z.of_nat D <= c < Z.of_nat D)%Z ->
  Numpy.getitem2 M r c = Ok (entry M (wrap D r) (wrap D c)).
Proof.
  intros Hs Hr Hc. unfold Numpy.getitem2.
  rewrite (shape1_shape Hs) by lia. destruct Hs as [-> _].
  now rewrite !normalize_index_wrap by assumption.
Qed.

Lemma getitem2_above_row (M : matrix) (D : nat) (r c : Z) :
  has_shape M D D -> (Z.of_nat D <= r)%Z ->
  Numpy.getitem2 M r c = Raise IndexError.
Proof.
  intros [Hl _] Hr. unfold Numpy.getitem2.
  now rewrite Hl, normalize_index_above.
Qed.

Lemma getitem2_above_col (M : matrix) (D : nat) (r c : Z) :
  has_shape M D D -> (Z.of_nat D <= c)%Z ->
  Numpy.getitem2 M r c = Raise IndexError.
Proof.
  intros Hs Hc. unfold Numpy.getitem2.
  destruct (normalize_index_cases (length M) r) as [[i ->] | ->]; simpl;
    [|reflexivity].
  destruct D as [|D].
  - destruct Hs as [Hl _]. destruct M; [|discriminate]. simpl.
    now rewrite normalize_index_above.
  - rewrite (shape1_shape Hs) by lia. now rewrite normalize_index_above.
Qed.

Lemma wrap_in_range (n : nat) (v : Z) :
  (0 <= v < Z.of_nat n)%Z -> wrap n v = Z.to_nat v.
Proof.
  intros H. unfold wrap. destruct (Z.ltb_spec v 0); [lia|reflexivity].
Qed.

Lemma fancy_index2_wrap (M : matrix) (D : nat) (X X2 : list Z) :
  has_shape M D D ->
  Forall (fun v => (- Z.of_nat D <= v < Z.of_nat D)%Z) X ->
  Forall (fun v => (- Z.of_nat D <= v < Z.of_nat D)%Z) X2 ->
  Numpy.fancy_index2 M X X2 =
  Ok (map (fun x => map (fun x2 => entry M (wrap D x) (wrap D x2)) X2) X).
Proof.
  intros Hs HX HX2. rewrite Forall_forall in HX, HX2.
  unfold Numpy.fancy_index2. apply mapM_ok. intros x Hx.
  apply mapM_ok. intros x2 Hx2. apply getitem2_wrap; auto.
Qed.

Lemma in_range_wrap_range (D : nat) (X : list Z) :
  in_range D X -> Forall (fun v => (- Z.of_nat D <= v < Z.of_nat D)%Z) X.
Proof. apply Forall_impl. intros; lia. Qed.


Lemma fancy_index2_raises_row (M : matrix) (D : nat) (X X2 : list Z) (v : Z) :
  has_shape M D D -> In v X -> (Z.of_nat D <= v)%Z -> X2 <> [] ->
  Numpy.fancy_index2 M X X2 = Raise IndexError.
Proof.
  intros Hs Hin Hv Hne. unfold Numpy.fancy_index2.
  apply mapM_raises with (x := v); auto.
  - intros y _. apply mapM_cases. intros; apply getitem2_cases.
  - destruct X2 as [|c X2]; [congruence|]. simpl.
    now rewrite (getitem2_above_row _ Hs Hv).
Qed.

Lemma fancy_index2_raises_col (M : matrix) (D : nat) (X X2 : list Z) (v : Z) :
  has_shape M D D -> In v X2 -> (Z.of_nat D <= v)%Z -> X <> [] ->
  Numpy.fancy_index2 M X X2 = Raise IndexError.
Proof.
  intros Hs Hin Hv Hne. unfold Numpy.fancy_index2.
  destruct X as [|r X]; [congruence|].
  apply mapM_raises with (x := r); [|now left|].
  - intros y _. apply mapM_cases. intros; apply getitem2_cases.
  - apply mapM_raises with (x := v); auto.
    + intros; apply getitem2_cases.
    + apply (getitem2_above_col _ Hs Hv).
Qed.

Lemma length_diagonal (M : matrix) (D : nat) :
  has_shape M D D -> length (Numpy.diagonal M) = D.
Proof.
  intros Hs. unfold Numpy.diagonal. rewrite length_map, length_seq.
  destruct D as [|D].
  - destruct Hs as [-> _]. reflexivity.
  - rewrite (shape1_shape Hs) by lia. destruct Hs as [-> _]. apply Nat.min_id.
Qed.

Lemma nth_diagonal (M : matrix) (D i : nat) :
  has_shape M D D -> i < D -> nth i (Numpy.diagonal M) 0%Qc = entry M i i.
Proof.
  intros Hs Hi. unfold Numpy.diagonal.
  rewrite (shape1_shape Hs) by lia. destruct Hs as [-> _].
  rewrite Nat.min_id. now rewrite nth_map_seq.
Qed.

Lemma wrap_lt (n : nat) (v : Z) :
  (- Z.of_nat n <= v < Z.of_nat n)%Z -> wrap n v < n.
Proof. intros H. unfold wrap. destruct (Z.ltb_spec v 0); lia. Qed.

Lemma Kdiag_wrap (self : Coregionalize) (X : list Z) :
  let D := output_dim self in
  has_shape (B self) D D ->
  Forall (fun v => (- Z.of_nat D <= v < Z.of_nat D)%Z) X ->
  Kdiag self X = Ok (map (fun v => entry (B self) (wrap D v) (wrap D v)) X).
Proof.
  intros D Hs HX. rewrite Forall_forall in HX.
  unfold Kdiag, Numpy.fancy_index1. apply mapM_ok. intros v Hv.
  rewrite (length_diagonal Hs), normalize_index_wrap by auto. simpl.
  rewrite (nth_diagonal Hs) by (apply wrap_lt; auto). reflexivity.
Qed.

Lemma Kdiag_raises (self : Coregionalize) (X : list Z) (v : Z) :
  let D := output_dim self in
  has_shape (B self) D D -> In v X -> (Z.of_nat D <= v)%Z ->
  Kdiag self X = Raise IndexError.
Proof.
  intros D Hs Hin Hv. unfold Kdiag, Numpy.fancy_index1.
  apply mapM_raises with (x := v); auto.
  - intros y _. destruct (normalize_index_cases (length (Numpy.diagonal (B self))) y)
      as [[k ->] | ->]; simpl; [left; eauto|now right].
  - now rewrite (length_diagonal Hs), normalize_index_above.
Qed.

(* ------------------------------------------------------------------ *)
(** * Sums *)

Lemma vsum_app (u v : vec) : vsum (u ++ v) = (vsum u + vsum v)%Qc.
Proof.
  induction u as [|x u IH].
  - simpl. now rewrite Qcplus_0_l.
  - change (vsum ((x :: u) ++ v)) with (x + vsum (u ++ v))%Qc.
    change (vsum (x :: u)) with (x + vsum u)%Qc.
    rewrite IH. ring.
Qed.

Lemma bigsum_0 (f : nat -> scalar) : bigsum 0 f = 0%Qc.
Proof. reflexivity. Qed.

Lemma bigsum_S (n : nat) (f : nat -> scalar) :
  bigsum (S n) f = (bigsum n f + f n)%Qc.
Proof.
  unfold bigsum. rewrite seq_S, map_app, vsum_app. simpl. ring.
Qed.

Lemma bigsum_ext (n : nat) (f g : nat -> scalar) :
  (forall k, k < n -> f k = g k) -> bigsum n f = bigsum n g.
Proof.
  induction n as [|n IH]; intros H; [reflexivity|].
  rewrite !bigsum_S, IH, H; auto.
Qed.

Lemma bigsum_zero (n : nat) : bigsum n (fun _ => 0%Qc) = 0%Qc.
Proof.
  induction n as [|n IH]; [reflexivity|]. rewrite bigsum_S, IH. ring.
Qed.

Lemma bigsum_add (n : nat) (f g : nat -> scalar) :
  bigsum n (fun k => (f k + g k)%Qc) = (bigsum n f + bigsum n g)%Qc.
Proof.
  induction n as [|n IH]; [rewrite !bigsum_0; ring|].
  rewrite !bigsum_S, IH. ring.
Qed.

Lemma bigsum_scale_l (n : nat) (c : scalar) (f : nat -> scalar) :
  bigsum n (fun k => (c * f k)%Qc) = (c * bigsum n f)%Qc.
Proof.
  induction n as [|n IH]; [rewrite !bigsum_0; ring|].
  rewrite !bigsum_S, IH. ring.
Qed.

Lemma bigsum_scale_r (n : nat) (c : scalar) (f : nat -> scalar) :
  bigsum n (fun k => (f k * c)%Qc) = (bigsum n f * c)%Qc.
Proof.
  induction n as [|n IH]; [rewrite !bigsum_0; ring|].
  rewrite !bigsum_S, IH. ring.
Qed.

Lemma bigsum_exchange (n m : nat) (f : nat -> nat -> scalar) :
  bigsum n (fun i => bigsum m (fun j => f i j)) =
  bigsum m (fun j => bigsum n (fun i => f i j)).
Proof.
  induction n as [|n IH].
  - rewrite bigsum_0. symmetry. apply bigsum_zero.
  - rewrite bigsum_S, IH, <- bigsum_add. apply bigsum_ext.
    intros j _. now rewrite bigsum_S.
Qed.

(** A sum that picks one term. *)
Lemma bigsum_single (n k : nat) (c : scalar) :
  k < n -> bigsum n (fun i => if Nat.eqb i k then c else 0%Qc) = c.
Proof.
  induction n as [|n IH]; intros Hk; [lia|].
  rewrite bigsum_S. destruct (Nat.eqb_spec n k) as [->|Hn].
  - rewrite (@bigsum_ext _ _ (fun _ => 0%Qc)), bigsum_zero; [ring|].
    intros i Hi. destruct (Nat.eqb_spec i k); [lia|reflexivity].
  - rewrite IH by lia. ring.
Qed.

Lemma vsum_bigsum (v : vec) : vsum v = bigsum (length v) (fun k => nth k v 0%Qc).
Proof. unfold bigsum. now rewrite map_nth_seq. Qed.

Lemma Qc_nonneg_add (a b : Qc) : (0 <= a -> 0 <= b -> 0 <= a + b)%Qc.
Proof.
  unfold Qcle, Qcplus, Q2Qc; cbn [this]. rewrite !Qred_correct. lra.
Qed.

Lemma Qc_nonneg_mul (a b : Qc) : (0 <= a -> 0 <= b -> 0 <= a * b)%Qc.
Proof.
  unfold Qcle, Qcmult, Q2Qc; cbn [this]. rewrite !Qred_correct. nra.
Qed.

Lemma Qc_nonneg_square (a : Qc) : (0 <= a * a)%Qc.
Proof.
  unfold Qcle, Qcmult, Q2Qc; cbn [this]. rewrite !Qred_correct. nra.
Qed.

Lemma bigsum_nonneg (n : nat) (f : nat -> scalar) :
  (forall k, k < n -> (0 <= f k)%Qc) -> (0 <= bigsum n f)%Qc.
Proof.
  induction n as [|n IH]; intros H.
  - rewrite bigsum_0. apply Qcle_refl.
  - rewrite bigsum_S. apply Qc_nonneg_add; auto.
Qed.

Lemma bigsum_S_front (n : nat) (f : nat -> scalar) :
  bigsum (S n) f = (f 0%nat + bigsum n (fun k => f (S k)))%Qc.
Proof.
  unfold bigsum. simpl. now rewrite <- seq_shift, map_map.
Qed.

(** Sum of the entries a boolean mask selects. *)
Lemma vsum_mask_select (mask : list bool) (v : vec) :
  length mask = length v ->
  vsum (Numpy.mask_select mask v) =
  bigsum (length v) (fun k => if nth k mask false then nth k v 0%Qc else 0%Qc).
Proof.
  revert mask. induction v as [|x v IH]; intros [|b mask] Hl;
    try discriminate; [reflexivity|].
  simpl length. rewrite bigsum_S_front. simpl nth.
  rewrite <- IH by (simpl in Hl; lia).
  unfold Numpy.mask_select. simpl. destruct b; simpl; [reflexivity|].
  now rewrite Qcplus_0_l.
Qed.

Lemma vdot_bigsum (u v : vec) :
  length u = length v ->
  Numpy.vdot u v = bigsum (length u) (fun k => (nth k u 0 * nth k v 0)%Qc).
Proof.
  revert v. induction u as [|x u IH]; intros [|y v] Hl; try discriminate;
    [reflexivity|].
  simpl length. rewrite bigsum_S_front. simpl nth.
  rewrite <- IH by (simpl in Hl; lia). reflexivity.
Qed.

(* ------------------------------------------------------------------ *)
(** * Shapes and entries of the numpy operations *)

Lemma nth_map_in {X Y : Type} (f : X -> Y) (l : list X) (i : nat) (dx : X) (dy : Y) :
  i < length l -> nth i (map f l) dy = f (nth i l dx).
Proof.
  intros Hi. rewrite (nth_indep _ dy (f dx)) by (now rewrite length_map).
  apply map_nth.
Qed.

Lemma has_shape_row (M : matrix) (r c a : nat) :
  has_shape M r c -> a < r -> length (nth a M []) = c.
Proof.
  intros [Hl Hall] Ha. rewrite Forall_forall in Hall.
  apply Hall, nth_In. lia.
Qed.

Lemma has_shape_map_seq (r c : nat) (f : nat -> nat -> scalar) :
  has_shape (map (fun i => map (f i) (seq 0 c)) (seq 0 r)) r c.
Proof.
  split.
  - now rewrite length_map, length_seq.
  - apply Forall_forall. intros row Hrow. apply in_map_iff in Hrow.
    destruct Hrow as [i [<- _]]. now rewrite length_map, length_seq.
Qed.

Lemma entry_map_seq (r c a b : nat) (f : nat -> nat -> scalar) :
  a < r -> b < c ->
  entry (map (fun i => map (f i) (seq 0 c)) (seq 0 r)) a b = f a b.
Proof.
  intros Ha Hb. unfold entry.
  rewrite (nth_map_seq _ 0 _ Ha). now rewrite (nth_map_seq _ 0 _ Hb).
Qed.

(** Two arrays of one shape with the same entries are equal. *)
Lemma matrix_ext (M N : matrix) (r c : nat) :
  has_shape M r c -> has_shape N r c ->
  (forall a b, a < r -> b < c -> entry M a b = entry N a b) -> M = N.
Proof.
  intros HM HN Hent. apply (nth_ext _ _ [] []).
  - destruct HM as [HM1 _], HN as [HN1 _]. congruence.
  - intros a Ha. assert (Ha' : a < r) by (destruct HM as [HM1 _]; lia).
    apply (nth_ext _ _ 0%Qc 0%Qc).
    + now rewrite (has_shape_row HM Ha'), (has_shape_row HN Ha').
    + intros b Hb. rewrite (has_shape_row HM Ha') in Hb. now apply Hent.
Qed.

Lemma length_vadd (u v : vec) :
  length u = length v -> length (Numpy.vadd u v) = length u.
Proof.
  intros Hl. unfold Numpy.vadd. rewrite length_map, length_combine, <- Hl.
  apply Nat.min_id.
Qed.

Lemma nth_vadd (u v : vec) (i : nat) :
  length u = length v -> i < length u ->
  nth i (Numpy.vadd u v) 0%Qc = (nth i u 0 + nth i v 0)%Qc.
Proof.
  intros Hl Hi. unfold Numpy.vadd.
  rewrite (nth_map_in _ _ (0%Qc, 0%Qc)) by (rewrite length_combine; lia).
  now rewrite combine_nth.
Qed.

Lemma nth_madd (M N : matrix) (a : nat) :
  length M = length N -> a < length M ->
  nth a (Numpy.madd M N) [] = Numpy.vadd (nth a M []) (nth a N []).
Proof.
  intros Hl Ha. unfold Numpy.madd.
  rewrite (nth_map_in _ _ ([], [])) by (rewrite length_combine; lia).
  now rewrite combine_nth.
Qed.

Lemma has_shape_madd (M N : matrix) (r c : nat) :
  has_shape M r c -> has_shape N r c -> has_shape (Numpy.madd M N) r c.
Proof.
  intros HM HN. assert (Hl : length M = length N)
    by (destruct HM as [HM1 _], HN as [HN1 _]; congruence).
  split.
  - unfold Numpy.madd. rewrite length_map, length_combine, <- Hl, Nat.min_id.
    now destruct HM.
  - apply Forall_nth. intros a d Ha.
    assert (Ha' : a < r).
    { unfold Numpy.madd in Ha.
      rewrite length_map, length_combine, <- Hl, Nat.min_id in Ha.
      destruct HM as [HM1 _]. lia. }
    rewrite (nth_indep _ d []) by exact Ha.
    rewrite nth_madd by (destruct HM as [HM1 _]; auto; lia).
    rewrite length_vadd; rewrite (has_shape_row HM Ha'); auto.
    now rewrite (has_shape_row HN Ha').
Qed.

Lemma entry_madd (M N : matrix) (r c a b : nat) :
  has_shape M r c -> has_shape N r c -> a < r -> b < c ->
  entry (Numpy.madd M N) a b = (entry M a b + entry N a b)%Qc.
Proof.
  intros HM HN Ha Hb. unfold entry.
  rewrite nth_madd by (destruct HM as [HM1 _], HN as [HN1 _]; lia).
  apply nth_vadd; rewrite (has_shape_row HM Ha); auto.
  now rewrite (has_shape_row HN Ha).
Qed.

Lemma has_shape_transpose (M : matrix) (r c : nat) :
  length M = r -> has_shape (Numpy.transpose c M) c r.
Proof.
  intros Hl. split.
  - unfold Numpy.transpose. now rewrite length_map, length_seq.
  - apply Forall_forall. intros row Hrow. apply in_map_iff in Hrow.
    destruct Hrow as [j [<- _]]. now rewrite length_map.
Qed.

Lemma entry_transpose (M : matrix) (c a b : nat) :
  a < c -> b < length M ->
  entry (Numpy.transpose c M) a b = entry M b a.
Proof.
  intros Ha Hb. unfold entry, Numpy.transpose.
  rewrite (nth_map_seq _ 0 _ Ha). simpl.
  now rewrite (nth_map_in _ _ []).
Qed.

Lemma has_shape_dot (c : nat) (M N : matrix) :
  has_shape (Numpy.dot c M N) (length M) c.
Proof.
  split.
  - unfold Numpy.dot. now rewrite length_map.
  - apply Forall_forall. intros row Hrow. apply in_map_iff in Hrow.
    destruct Hrow as [j [<- _]]. now rewrite length_map, length_seq.
Qed.

(** An entry of [np.dot(W, W.T)] is the product of two rows of W. *)
Lemma entry_dot_transpose (Wm : matrix) (D R a b : nat) :
  has_shape Wm D R -> a < D -> b < D ->
  entry (Numpy.dot D Wm (Numpy.transpose R Wm)) a b =
  bigsum R (fun k => (entry Wm a k * entry Wm b k)%Qc).
Proof.
  intros HW Ha Hb. unfold entry at 1, Numpy.dot.
  rewrite (nth_map_in _ _ []) by (destruct HW as [HW1 _]; lia).
  rewrite (nth_map_seq _ 0 _ Hb). simpl.
  unfold Numpy.transpose. rewrite map_map.
  rewrite (map_ext _ (fun k => nth k (nth b Wm []) 0%Qc))
    by (intros k; apply (@nth_map_in _ _ (fun row => nth k row 0%Qc) Wm b [] 0%Qc);
        destruct HW as [HW1 _]; lia).
  rewrite <- (has_shape_row HW Hb) at 1. rewrite map_nth_seq.
  rewrite vdot_bigsum
    by (now rewrite (has_shape_row HW Ha), (has_shape_row HW Hb)).
  now rewrite (has_shape_row HW Ha).
Qed.

Lemma has_shape_diagflat (v : vec) :
  has_shape (Numpy.diagflat v) (length v) (length v).
Proof. apply has_shape_map_seq. Qed.

Lemma entry_diagflat (v : vec) (a b : nat) :
  a < length v -> b < length v ->
  entry (Numpy.diagflat v) a b = if Nat.eqb a b then nth a v 0%Qc else 0%Qc.
Proof. intros Ha Hb. unfold Numpy.diagflat. now rewrite entry_map_seq. Qed.

(** The matrix [parameters_changed] stores. *)
Lemma B_shape (self : Coregionalize) :
  well_shaped self ->
  has_shape (B (parameters_changed self)) (output_dim self) (output_dim self).
Proof.
  intros [HW Hk]. simpl. apply has_shape_madd.
  - destruct HW as [HWl HWr]. rewrite <- HWl at 2. apply has_shape_dot.
  - rewrite <- Hk. apply has_shape_diagflat.
Qed.

Lemma B_entry (self : Coregionalize) (a b : nat) :
  well_shaped self -> a < output_dim self -> b < output_dim self ->
  entry (B (parameters_changed self)) a b =
  (bigsum (rank self) (fun k => (entry (W self) a k * entry (W self) b k)%Qc)
   + (if Nat.eqb a b then nth a (kappa self) 0 else 0))%Qc.
Proof.
  intros [HW Hk] Ha Hb. simpl.
  rewrite (@entry_madd _ _ (output_dim self) (output_dim self)); auto.
  - rewrite (entry_dot_transpose HW Ha Hb).
    rewrite entry_diagflat by (rewrite Hk; assumption). reflexivity.
  - destruct HW as [HWl HWr]. rewrite <- HWl at 2. apply has_shape_dot.
  - rewrite <- Hk. apply has_shape_diagflat.
Qed.

Lemma B_symmetric (self : Coregionalize) (a b : nat) :
  well_shaped self -> a < output_dim self -> b < output_dim self ->
  entry (B (parameters_changed self)) a b =
  entry (B (parameters_changed self)) b a.
Proof.
  intros Hw Ha Hb. rewrite !B_entry by assumption. f_equal.
  - apply bigsum_ext. intros k _. ring.
  - rewrite (Nat.eqb_sym b a). destruct (Nat.eqb_spec a b) as [->|]; reflexivity.
Qed.

(* ------------------------------------------------------------------ *)
(** * The quadratic form of B *)


Lemma bigsum_product (n m : nat) (f g : nat -> scalar) :
  (bigsum n f * bigsum m g)%Qc =
  bigsum n (fun a => bigsum m (fun b => (f a * g b)%Qc)).
Proof.
  rewrite <- bigsum_scale_r. apply bigsum_ext. intros a _.
  now rewrite bigsum_scale_l.
Qed.

Lemma quadratic_form_bigsum (M : matrix) (D : nat) (x : vec) :
  has_shape M D D -> length x = D ->
  quadratic_form M x =
  bigsum D (fun a => bigsum D (fun b => (nth a x 0 * (entry M a b * nth b x 0))%Qc)).
Proof.
  intros HM Hx. unfold quadratic_form.
  assert (HMl : length M = D) by apply HM.
  rewrite vdot_bigsum by (rewrite length_map; congruence).
  rewrite Hx. apply bigsum_ext. intros a Ha.
  rewrite (nth_map_in _ _ []) by lia.
  rewrite vdot_bigsum by (rewrite (has_shape_row HM Ha); congruence).
  rewrite (has_shape_row HM Ha), <- bigsum_scale_l. reflexivity.
Qed.

(** [x^T (W W^T + diag kappa) x = |W^T x|^2 + sum_a kappa[a] x[a]^2]. *)
Lemma quadratic_form_B (self : Coregionalize) (x : vec) :
  well_shaped self -> length x = output_dim self ->
  quadratic_form (B (parameters_changed self)) x =
  (bigsum (rank self) (fun k =>
     (bigsum (output_dim self) (fun a => nth a x 0 * entry (W self) a k)
      * bigsum (output_dim self) (fun a => nth a x 0 * entry (W self) a k))%Qc)
   + bigsum (output_dim self) (fun a =>
       (nth a (kappa self) 0 * (nth a x 0 * nth a x 0))%Qc))%Qc.
Proof.
  intros Hw Hx. set (D := output_dim self). set (R := rank self).
  rewrite (quadratic_form_bigsum x (B_shape Hw) Hx). fold D.
  transitivity
    (bigsum D (fun a =>
       (bigsum D (fun b => bigsum R (fun k =>
          (nth a x 0 * entry (W self) a k) * (nth b x 0 * entry (W self) b k)))
        + nth a (kappa self) 0 * (nth a x 0 * nth a x 0))%Qc)).
  - apply bigsum_ext. intros a Ha.
    transitivity
      (bigsum D (fun b =>
         (bigsum R (fun k =>
            (nth a x 0 * entry (W self) a k) * (nth b x 0 * entry (W self) b k))
          + nth a x 0
            * ((if Nat.eqb a b then nth a (kappa self) 0 else 0) * nth b x 0))%Qc)).
    + apply bigsum_ext. intros b Hb. rewrite B_entry by assumption. fold R.
      rewrite Qcmult_plus_distr_l, Qcmult_plus_distr_r. f_equal.
      rewrite <- bigsum_scale_r, <- bigsum_scale_l.
      apply bigsum_ext. intros k _. ring.
    + rewrite bigsum_add. f_equal. rewrite bigsum_scale_l.
      destruct (Nat.eq_dec D 0) as [HD|HD]; [lia|].
      transitivity (nth a x 0 * (nth a (kappa self) 0 * nth a x 0))%Qc; [|ring].
      f_equal. rewrite <- (bigsum_single (nth a (kappa self) 0 * nth a x 0)%Qc Ha).
      apply bigsum_ext. intros b _. rewrite (Nat.eqb_sym b a).
      destruct (Nat.eqb_spec a b) as [->|]; ring.
  - rewrite bigsum_add. f_equal.
    rewrite (@bigsum_ext D _ (fun a => bigsum R (fun k => bigsum D (fun b =>
       (nth a x 0 * entry (W self) a k) * (nth b x 0 * entry (W self) b k))%Qc)))
      by (intros a _; apply bigsum_exchange).
    rewrite bigsum_exchange. apply bigsum_ext. intros k _.
    now rewrite bigsum_product.
Qed.

(** C7: after [parameters_changed], B is W W^T + diag(kappa) entry by entry;
    it is a square matrix of size output_dim, equal to its transpose, and
    when no entry of kappa is negative its quadratic form is non-negative
    at every vector. *)
Theorem C7_B_symmetric_psd (self : Coregionalize) :
  well_shaped self ->
  let D := output_dim self in
  let B' := B (parameters_changed self) in
  has_shape B' D D /\
  (forall a b, a < D -> b < D ->
     entry B' a b =
     (bigsum (rank self) (fun k => entry (W self) a k * entry (W self) b k)
      + (if Nat.eqb a b then nth a (kappa self) 0 else 0))%Qc) /\
  Numpy.transpose D B' = B' /\
  (Forall (fun k => (0 <= k)%Qc) (kappa self) ->
   forall x : vec, length x = D -> (0 <= quadratic_form B' x)%Qc).
Proof.
  intros Hw D B'. split; [apply (B_shape Hw)|]. split; [|split].
  - intros a b Ha Hb. now apply B_entry.
  - apply (@matrix_ext _ _ D D).
    + apply has_shape_transpose, (B_shape Hw).
    + apply (B_shape Hw).
    + intros a b Ha Hb.
      rewrite entry_transpose;
        [now apply B_symmetric | assumption
        | unfold B'; rewrite (proj1 (B_shape Hw)); assumption].
  - intros Hk x Hx. unfold B'. rewrite (quadratic_form_B x Hw Hx).
    apply Qc_nonneg_add; apply bigsum_nonneg.
    + intros k _. apply Qc_nonneg_square.
    + intros a Ha. apply Qc_nonneg_mul; [|apply Qc_nonneg_square].
      rewrite Forall_forall in Hk. apply Hk, nth_In.
      destruct Hw as [_ Hkl]. unfold D in Ha. lia.
Qed.

(* ------------------------------------------------------------------ *)
(** * Loops and buffers *)

Lemma for_S {S : Type} (n : nat) (body : nat -> S -> outcome S) (s : S) :
  for_ (Datatypes.S n) body s = bind (for_ n body s) (body n).
Proof.
  unfold for_. rewrite seq_S, fold_left_app. reflexivity.
Qed.

(** The invariant rule: an invariant that holds at entry and is carried by
    every iteration, each of which returns normally, holds at exit, and the
    loop returns normally. *)
Lemma for_invariant {S : Type} (P : nat -> S -> Prop) (n : nat)
    (body : nat -> S -> outcome S) (s : S) :
  P 0 s ->
  (forall i t, i < n -> P i t -> exists t', body i t = Ok t' /\ P (Datatypes.S i) t') ->
  exists t, for_ n body s = Ok t /\ P n t.
Proof.
  intros H0 Hstep. induction n as [|n IH].
  - exists s. split; [reflexivity|exact H0].
  - destruct IH as [t [Ht HP]]; [intros; apply Hstep; auto|].
    destruct (Hstep n t (Nat.lt_succ_diag_r n) HP) as [t' [Ht' HP']].
    exists t'. split; [|exact HP']. rewrite for_S, Ht. exact Ht'.
Qed.

Lemma load_ok {A : Type} (d : A) (buf : list A) (z : Z) (k : nat) :
  z = Z.of_nat k -> k < length buf -> Weave.load d buf z = Ok (nth k buf d).
Proof.
  intros -> Hk. unfold Weave.load, Weave.in_buffer.
  destruct (Z.leb_spec 0 (Z.of_nat k)); [|lia].
  destruct (Z.ltb_spec (Z.of_nat k) (Z.of_nat (length buf))); [|lia].
  now rewrite Nat2Z.id.
Qed.

Lemma store_ok {A : Type} (buf : list A) (z : Z) (k : nat) (v : A) :
  z = Z.of_nat k -> k < length buf -> Weave.store buf z v = Ok (upd k v buf).
Proof.
  intros -> Hk. unfold Weave.store, Weave.in_buffer.
  destruct (Z.leb_spec 0 (Z.of_nat k)); [|lia].
  destruct (Z.ltb_spec (Z.of_nat k) (Z.of_nat (length buf))); [|lia].
  now rewrite Nat2Z.id.
Qed.

Lemma in_range_nth (D : nat) (X : list Z) (j : nat) :
  in_range D X -> j < length X ->
  Z.to_nat (nth j X 0%Z) < D /\ nth j X 0%Z = Z.of_nat (Z.to_nat (nth j X 0%Z)).
Proof.
  intros HX Hj. unfold in_range in HX. rewrite Forall_forall in HX.
  specialize (HX _ (nth_In X 0%Z Hj)). lia.
Qed.

Lemma flat_index_inj (m i j i' j' : nat) :
  i < m -> i' < m -> i + j * m = i' + j' * m -> i = i' /\ j = j'.
Proof.
  intros Hi Hi' H.
  assert (j = j') by nia. subst j'. lia.
Qed.

Lemma flat_index_lt (r c a b : nat) : a < r -> b < c -> b + a * c < r * c.
Proof. intros; nia. Qed.

Lemma length_concat_shape (M : matrix) (r c : nat) :
  has_shape M r c -> length (concat M) = r * c.
Proof.
  revert r. induction M as [|row M IH]; intros r [Hl Hall]; simpl in *.
  - now subst r.
  - inversion Hall; subst. rewrite length_app, (IH (length M)); [lia|].
    split; auto.
Qed.

Lemma nth_concat_shape (M : matrix) (r c a b : nat) :
  has_shape M r c -> a < r -> b < c ->
  nth (b + a * c) (concat M) 0%Qc = entry M a b.
Proof.
  revert r a. induction M as [|row M IH]; intros r a [Hl Hall] Ha Hb;
    simpl in *; [lia|].
  inversion Hall as [|? ? Hrow HM]; subst. destruct a as [|a].
  - simpl. rewrite Nat.add_0_r. now rewrite app_nth1 by lia.
  - rewrite app_nth2 by (simpl; lia).
    replace (b + Datatypes.S a * length row - length row)
      with (b + a * length row) by (simpl; lia).
    unfold entry. simpl. apply (IH (length M)); [split; auto|lia|lia].
Qed.

Lemma has_shape_reshape (r c : nat) (buf : vec) :
  length buf = r * c -> has_shape (Weave.reshape r c buf) r c.
Proof.
  intros Hl. split.
  - unfold Weave.reshape. now rewrite length_map, length_seq.
  - apply Forall_forall. intros row Hrow. apply in_map_iff in Hrow.
    destruct Hrow as [i [<- Hi]]. apply in_seq in Hi.
    rewrite length_firstn, length_skipn. nia.
Qed.

Lemma entry_reshape (r c a b : nat) (buf : vec) :
  a < r -> b < c -> entry (Weave.reshape r c buf) a b = nth (b + a * c) buf 0%Qc.
Proof.
  intros Ha Hb. unfold entry, Weave.reshape.
  rewrite (nth_map_seq _ 0 _ Ha). simpl.
  rewrite nth_firstn_skipn by exact Hb. f_equal. lia.
Qed.






(* ------------------------------------------------------------------ *)
(** * K: the two strategies *)

Lemma synced_shape (self : Coregionalize) :
  well_shaped self -> synced self ->
  has_shape (B self) (output_dim self) (output_dim self).
Proof. intros Hw Hs. rewrite Hs. now apply B_shape. Qed.








(** The conversion to [np.int] keeps the values of the int64 range. *)
Lemma int64_id (v : Z) : (- 2 ^ 63 <= v < 2 ^ 63)%Z -> Numpy.int64 v = v.
Proof.
  intros H. unfold Numpy.int64.
  change (2 ^ 63)%Z with 9223372036854775808%Z in *.
  change (2 ^ 64)%Z with 18446744073709551616%Z.
  rewrite Z.mod_small; lia.
Qed.

Lemma int64_range (v : Z) : (- 2 ^ 63 <= Numpy.int64 v < 2 ^ 63)%Z.
Proof.
  unfold Numpy.int64.
  change (2 ^ 63)%Z with 9223372036854775808%Z.
  change (2 ^ 64)%Z with 18446744073709551616%Z.
  pose proof (Z.mod_pos_bound (v + 9223372036854775808)
                18446744073709551616 eq_refl).
  lia.
Qed.

Lemma asarray_int_id (X : list Z) :
  Forall (fun v => (- 2 ^ 63 <= v < 2 ^ 63)%Z) X -> Numpy.asarray_int X = X.
Proof.
  intros H. unfold Numpy.asarray_int. rewrite <- (map_id X) at 2.
  apply map_ext_in. intros v Hv. rewrite Forall_forall in H.
  now apply int64_id, H.
Qed.

(** Converting a converted array changes nothing. *)
Lemma asarray_int_idempotent (X : list Z) :
  Numpy.asarray_int (Numpy.asarray_int X) = Numpy.asarray_int X.
Proof.
  apply asarray_int_id, Forall_forall. intros v Hv.
  unfold Numpy.asarray_int in Hv. apply in_map_iff in Hv.
  destruct Hv as [u [<- _]]. apply int64_range.
Qed.


(** The gather with an empty second index array reads nothing. *)
Lemma fancy_index2_no_columns (M : matrix) (X : list Z) :
  Numpy.fancy_index2 M X [] = Ok (map (fun _ => []) X).
Proof. unfold Numpy.fancy_index2. apply mapM_ok. intros x _. reflexivity. Qed.

(** C10, as the code has it.  The numpy path converts the labels to
    [np.int] first.  An entry whose converted value is at or above
    output_dim makes Kdiag raise IndexError, and K as well when X2 is
    omitted or the other index vector is not empty; with an empty other
    vector K reads nothing and returns an array without columns.  Entries
    whose converted value lies in [-output_dim, 0) are accepted and read B
    at output_dim + v.  The conversion keeps every value of the int64
    range. *)
Theorem C10_numpy_bounds (self : Coregionalize) (X X2 : list Z) :
  let D := output_dim self in
  let index := Numpy.asarray_int X in
  let index2 := Numpy.asarray_int X2 in
  has_shape (B self) D D ->
  (forall v, In v X -> (Z.of_nat D <= Numpy.int64 v)%Z ->
     Kdiag self index = Raise IndexError /\
     _K_numpy self index None = Raise IndexError /\
     (X2 <> [] ->
        _K_numpy self index (Some index2) = Raise IndexError /\
        _K_numpy self index2 (Some index) = Raise IndexError)) /\
  _K_numpy self index (Some (Numpy.asarray_int [])) = Ok (map (fun _ => []) X) /\
  (Forall (fun v => (- Z.of_nat D <= Numpy.int64 v < Z.of_nat D)%Z) X ->
   Forall (fun v => (- Z.of_nat D <= Numpy.int64 v < Z.of_nat D)%Z) X2 ->
   Kdiag self index =
     Ok (map (fun v => entry (B self) (wrap D (Numpy.int64 v))
                                      (wrap D (Numpy.int64 v))) X) /\
   _K_numpy self index None =
     Ok (map (fun x => map (fun x2 => entry (B self) (wrap D (Numpy.int64 x))
                                                     (wrap D (Numpy.int64 x2)))
                           X) X) /\
   _K_numpy self index (Some index2) =
     Ok (map (fun x => map (fun x2 => entry (B self) (wrap D (Numpy.int64 x))
                                                     (wrap D (Numpy.int64 x2)))
                           X2) X)) /\
  (forall v, (- 2 ^ 63 <= v < 2 ^ 63)%Z -> Numpy.int64 v = v) /\
  (forall v, (- Z.of_nat D <= v < 0)%Z -> wrap D v = Z.to_nat (Z.of_nat D + v)).
Proof.
  intros D index index2 HB. split; [|split; [|split; [|split]]].
  - intros v Hin Hv.
    assert (Hin' : In (Numpy.int64 v) index) by (now apply in_map).
    assert (HX : index <> []) by (intros E; rewrite E in Hin'; destruct Hin').
    split; [now apply Kdiag_raises with (v := Numpy.int64 v)|]. split.
    + unfold _K_numpy.
      now apply fancy_index2_raises_row with (D := D) (v := Numpy.int64 v).
    + intros HX2.
      assert (HX2' : index2 <> []) by (destruct X2; [congruence|discriminate]).
      unfold _K_numpy. split.
      * now apply fancy_index2_raises_row with (D := D) (v := Numpy.int64 v).
      * now apply fancy_index2_raises_col with (D := D) (v := Numpy.int64 v).
  - unfold _K_numpy. cbn [Numpy.asarray_int map].
    rewrite fancy_index2_no_columns. unfold index, Numpy.asarray_int.
    now rewrite map_map.
  - intros HX HX2.
    assert (HX' : Forall (fun v => (- Z.of_nat D <= v < Z.of_nat D)%Z) index)
      by (now apply Forall_map).
    assert (HX2' : Forall (fun v => (- Z.of_nat D <= v < Z.of_nat D)%Z) index2)
      by (now apply Forall_map).
    split; [|split].
    + rewrite (@Kdiag_wrap self index HB HX').
      unfold index, Numpy.asarray_int. now rewrite map_map.
    + unfold _K_numpy. rewrite (fancy_index2_wrap HB HX' HX').
      unfold index, Numpy.asarray_int. rewrite map_map. f_equal.
      apply map_ext. intros x. now rewrite map_map.
    + unfold _K_numpy. rewrite (fancy_index2_wrap HB HX' HX2').
      unfold index, index2, Numpy.asarray_int. rewrite map_map. f_equal.
      apply map_ext. intros x. now rewrite map_map.
  - apply int64_id.
  - intros v Hv. unfold wrap. destruct (Z.ltb_spec v 0); [reflexivity|lia].
Qed.

(* ------------------------------------------------------------------ *)
(** * The diagonal gradient and the constructor *)

Lemma nth_eq_mask (X : list Z) (a k : nat) :
  k < length X ->
  nth k (Numpy.eq_mask X a) false = Z.eqb (nth k X 0%Z) (Z.of_nat a).
Proof.
  intros Hk. unfold Numpy.eq_mask. now rewrite (nth_map_in _ _ 0%Z).
Qed.

Lemma length_eq_mask (X : list Z) (a : nat) :
  length (Numpy.eq_mask X a) = length X.
Proof. unfold Numpy.eq_mask. apply length_map. Qed.

Lemma masked_sum_channel (dL_dKdiag : vec) (X : list Z) (a : nat) :
  length dL_dKdiag = length X ->
  vsum (Numpy.mask_select (Numpy.eq_mask X a) dL_dKdiag) =
  channel_sum dL_dKdiag X a.
Proof.
  intros Hl. rewrite vsum_mask_select by (now rewrite length_eq_mask).
  unfold channel_sum. fold (bigsum (length X)
    (fun i => if Z.eqb (nth i X 0%Z) (Z.of_nat a)
              then nth i dL_dKdiag 0%Qc else 0%Qc)).
  rewrite Hl. apply bigsum_ext. intros k Hk. now rewrite nth_eq_mask.
Qed.

(** C8: [update_gradients_diag] stores the per-channel sums s as the
    gradient of kappa and 2 * W[a,:] * s[a] as row a of the gradient of W. *)
Theorem C8_update_gradients_diag (self : Coregionalize) (dL_dKdiag : vec)
    (X : list Z) :
  well_shaped self -> length dL_dKdiag = length X ->
  in_range (output_dim self) X ->
  let self' := update_gradients_diag self dL_dKdiag X in
  let D := output_dim self in
  length (kappa_gradient self') = D /\
  (forall a, a < D ->
     nth a (kappa_gradient self') 0%Qc = channel_sum dL_dKdiag X a) /\
  has_shape (W_gradient self') D (rank self) /\
  (forall a k, a < D -> k < rank self ->
     entry (W_gradient self') a k =
     (two * entry (W self) a k * channel_sum dL_dKdiag X a)%Qc).
Proof.
  intros [[HWl HWr] Hk] Hl _ self' D. simpl.
  set (s := map (fun i => vsum (Numpy.mask_select (Numpy.eq_mask X i) dL_dKdiag))
                (seq 0 (output_dim self))).
  assert (Hsl : length s = D) by (unfold s; now rewrite length_map, length_seq).
  assert (Hs : forall a, a < D -> nth a s 0%Qc = channel_sum dL_dKdiag X a).
  { intros a Ha. unfold s. rewrite (nth_map_seq _ 0 _ Ha).
    now apply masked_sum_channel. }
  assert (Hrow : forall a, a < D ->
            nth a (map (fun p : list Qc * Qc =>
                          map (fun w => (two * w * snd p)%Qc) (fst p))
                       (combine (W self) s)) [] =
            map (fun w => (two * w * nth a s 0)%Qc) (nth a (W self) [])).
  { intros a Ha.
    rewrite (nth_map_in _ _ ([], 0%Qc)) by (rewrite length_combine; lia).
    rewrite combine_nth by lia. reflexivity. }
  split; [exact Hsl|]. split; [exact Hs|]. split; [split|].
  - rewrite length_map, length_combine. lia.
  - apply Forall_nth. intros a d Ha.
    rewrite length_map, length_combine in Ha.
    rewrite (nth_indep _ d []) by (rewrite length_map, length_combine; lia).
    rewrite Hrow by lia. rewrite length_map.
    rewrite Forall_forall in HWr. apply HWr, nth_In. lia.
  - intros a k Ha Hk'. unfold entry at 1. rewrite Hrow by assumption.
    assert (Hlen : length (nth a (W self) []) = rank self).
    { rewrite Forall_forall in HWr. apply HWr, nth_In. unfold D in Ha. lia. }
    rewrite (nth_map_in _ _ 0%Qc) by lia. now rewrite Hs.
Qed.

Lemma shape_eqb_spec (M : matrix) (r c : nat) :
  shape_eqb M r c = true <-> has_shape M r c.
Proof.
  unfold shape_eqb, has_shape.
  rewrite andb_true_iff, Nat.eqb_eq, forallb_forall, Forall_forall.
  split; intros [H1 H2]; split; try exact H1; intros row Hrow.
  - apply Nat.eqb_eq. now apply H2.
  - apply Nat.eqb_eq. now apply H2.
Qed.

Lemma has_shape_random (random_W : nat -> nat -> scalar) (D R : nat) :
  has_shape (map (fun i => map (random_W i) (seq 0 R)) (seq 0 D)) D R.
Proof. apply has_shape_map_seq. Qed.

Lemma default_kappa (D : nat) :
  map (fun one => (half * one)%Qc) (repeat 1%Qc D) = repeat half D.
Proof.
  induction D as [|D IH]; [reflexivity|].
  change (repeat 1%Qc (S D)) with (1%Qc :: repeat 1%Qc D).
  change (repeat half (S D)) with (half :: repeat half D).
  rewrite map_cons, IH, Qcmult_1_r. reflexivity.
Qed.

(** C9, as the code has it: construction fails, with the AssertionError of
    a shape assertion, exactly when a supplied W is not of shape
    (output_dim, rank) or a supplied kappa is not of length output_dim; it
    prints the rank warning exactly when rank > output_dim, whether or not
    it then fails; an absent kappa is 0.5 in every entry. *)
Theorem C9_init (random_W : nat -> nat -> scalar)
    (input_dim D R : nat) (W0 : option matrix) (kappa0 : option vec) :
  let r := __init__ random_W input_dim D R W0 kappa0 in
  let bad_W := exists Wm, W0 = Some Wm /\ ~ has_shape Wm D R in
  let bad_kappa := exists k, kappa0 = Some k /\ length k <> D in
  (snd r = Raise AssertionError <-> bad_W \/ bad_kappa) /\
  ((exists self, snd r = Ok self) <-> ~ (bad_W \/ bad_kappa)) /\
  (fst r = [rank_warning] <-> D < R) /\
  (fst r = [] <-> R <= D) /\
  (forall self, snd r = Ok self ->
     output_dim self = D /\ rank self = R /\
     well_shaped self /\
     (kappa0 = None -> kappa self = repeat half D)).
Proof.
  intros r bad_W bad_kappa. subst r. unfold __init__. cbn [fst snd].
  assert (HW : forall Wm, shape_eqb Wm D R = false <->
                          ~ has_shape Wm D R).
  { intros Wm. rewrite <- shape_eqb_spec.
    destruct (shape_eqb Wm D R); split; congruence. }
  split; [|split; [|split; [|split]]].
  - destruct W0 as [Wm|].
    + destruct (shape_eqb Wm D R) eqn:HWm; simpl.
      * destruct kappa0 as [k|]; simpl.
        -- destruct (Nat.eqb_spec (length k) D) as [Hk|Hk]; simpl.
           ++ split; [discriminate|].
              intros [[W' [HW' Hbad]]|[k' [Hk' Hbad]]].
              ** inversion HW'; subst W'. apply HW in Hbad. congruence.
              ** inversion Hk'; subst k'. contradiction.
           ++ split; [|reflexivity]. intros _. right. exists k. auto.
        -- split; [discriminate|].
           intros [[W' [HW' Hbad]]|[k' [Hk' _]]]; [|discriminate].
           inversion HW'; subst W'. apply HW in Hbad. congruence.
      * split; [|reflexivity]. intros _. left. exists Wm.
        split; [reflexivity|now apply HW].
    + simpl. destruct kappa0 as [k|]; simpl.
      * destruct (Nat.eqb_spec (length k) D) as [Hk|Hk]; simpl.
        -- split; [discriminate|].
           intros [[W' [HW' _]]|[k' [Hk' Hbad]]]; [discriminate|].
           inversion Hk'; subst k'. contradiction.
        -- split; [|reflexivity]. intros _. right. exists k. auto.
      * split; [discriminate|].
        intros [[W' [HW' _]]|[k' [Hk' _]]]; discriminate.
  - destruct W0 as [Wm|].
    + destruct (shape_eqb Wm D R) eqn:HWm; simpl.
      * destruct kappa0 as [k|]; simpl.
        -- destruct (Nat.eqb_spec (length k) D) as [Hk|Hk]; simpl.
           ++ split; [|eauto]. intros _ [[W' [HW' Hbad]]|[k' [Hk' Hbad]]].
              ** inversion HW'; subst W'. apply HW in Hbad. congruence.
              ** inversion Hk'; subst k'. contradiction.
           ++ split; [intros [self Hself]; discriminate|].
              intros Hn. exfalso. apply Hn. right. exists k. auto.
        -- split; [|eauto]. intros _ [[W' [HW' Hbad]]|[k' [Hk' _]]];
             [|discriminate].
           inversion HW'; subst W'. apply HW in Hbad. congruence.
      * split; [intros [self Hself]; discriminate|].
        intros Hn. exfalso. apply Hn. left. exists Wm.
        split; [reflexivity|now apply HW].
    + simpl. destruct kappa0 as [k|]; simpl.
      * destruct (Nat.eqb_spec (length k) D) as [Hk|Hk]; simpl.
        -- split; [|eauto]. intros _ [[W' [HW' _]]|[k' [Hk' Hbad]]];
             [discriminate|].
           inversion Hk'; subst k'. contradiction.
        -- split; [intros [self Hself]; discriminate|].
           intros Hn. exfalso. apply Hn. right. exists k. auto.
      * split; [|eauto]. intros _ [[W' [HW' _]]|[k' [Hk' _]]]; discriminate.
  - destruct (Nat.ltb_spec D R); split; auto; try discriminate; lia.
  - destruct (Nat.ltb_spec D R); split; auto; try discriminate; lia.
  - intros self Hself. cbn [snd] in Hself.
    destruct W0 as [Wm|].
    + destruct (shape_eqb Wm D R) eqn:HWm; [|discriminate Hself].
      apply shape_eqb_spec in HWm. simpl in Hself.
      destruct kappa0 as [k|]; simpl in Hself.
      * destruct (Nat.eqb_spec (length k) D) as [Hk|Hk];
          [|discriminate Hself].
        apply Ok_inj in Hself. subst self. unfold well_shaped. simpl.
        repeat split; try assumption; try apply HWm. discriminate.
      * apply Ok_inj in Hself. subst self. unfold well_shaped. simpl.
        rewrite default_kappa.
        repeat split; try apply HWm; apply repeat_length.
    + simpl in Hself. destruct kappa0 as [k|]; simpl in Hself.
      * destruct (Nat.eqb_spec (length k) D) as [Hk|Hk];
          [|discriminate Hself].
        apply Ok_inj in Hself. subst self. unfold well_shaped. simpl.
        repeat split; try assumption; try apply has_shape_random. discriminate.
      * apply Ok_inj in Hself. subst self. unfold well_shaped. simpl.
        rewrite default_kappa.
        repeat split; try apply has_shape_random; apply repeat_length.
Qed.

(* ------------------------------------------------------------------ *)
(** * The gradient reduction: numpy strategy *)

Lemma shape1_square (M : matrix) (D : nat) : has_shape M D D -> Numpy.shape1 M = D.
Proof.
  intros HM. destruct D as [|D].
  - destruct HM as [Hl _]. destruct M; [reflexivity|discriminate].
  - apply (shape1_shape HM). lia.
Qed.

Lemma has_shape_zeros_like (M : matrix) (r c : nat) :
  has_shape M r c -> has_shape (Numpy.zeros_like M) r c.
Proof.
  intros [Hl Hall]. split.
  - unfold Numpy.zeros_like. now rewrite length_map.
  - rewrite Forall_forall in *. intros row Hrow. apply in_map_iff in Hrow.
    destruct Hrow as [row' [<- Hin]]. rewrite length_map. now apply Hall.
Qed.

Lemma entry_zeros_like (M : matrix) (a b : nat) :
  entry (Numpy.zeros_like M) a b = 0%Qc.
Proof.
  unfold entry, Numpy.zeros_like.
  destruct (Nat.lt_ge_cases a (length M)) as [Ha|Ha].
  - rewrite (nth_map_in _ _ []) by exact Ha.
    destruct (Nat.lt_ge_cases b (length (nth a M []))) as [Hb|Hb].
    + now rewrite (nth_map_in _ _ 0%Qc) by exact Hb.
    + apply nth_overflow. now rewrite length_map.
  - rewrite (nth_overflow (map _ M)) by (now rewrite length_map).
    now destruct b.
Qed.

Lemma nth_upd (A : Type) (k k' : nat) (v d : A) (l : list A) :
  k' < length l ->
  nth k (upd k' v l) d = if Nat.eqb k k' then v else nth k l d.
Proof.
  intros Hk'. destruct (Nat.eqb_spec k k') as [->|Hne].
  - now apply nth_upd_same.
  - now apply nth_upd_other.
Qed.

Lemma setitem2_ok (M : matrix) (r c j i : nat) (v : scalar) :
  has_shape M r c -> j < r -> i < c ->
  Numpy.setitem2 M j i v = Ok (upd j (upd i v (nth j M [])) M).
Proof.
  intros HM Hj Hi. unfold Numpy.setitem2.
  rewrite (shape1_shape HM) by lia. destruct HM as [Hl _]. rewrite Hl.
  destruct (Nat.ltb_spec j r); [|lia]. destruct (Nat.ltb_spec i c); [|lia].
  reflexivity.
Qed.

Lemma has_shape_upd2 (M : matrix) (r c j i : nat) (v : scalar) :
  has_shape M r c -> j < r ->
  has_shape (upd j (upd i v (nth j M [])) M) r c.
Proof.
  intros HM Hj. pose proof HM as [Hl Hall]. split.
  - now rewrite length_upd.
  - apply Forall_nth. intros a d Ha. rewrite length_upd in Ha.
    rewrite (nth_indep _ d []) by (now rewrite length_upd).
    rewrite nth_upd by lia. destruct (Nat.eqb a j).
    + rewrite length_upd. now apply (has_shape_row HM).
    + apply (has_shape_row HM). lia.
Qed.

Lemma entry_upd2 (M : matrix) (r c j i a b : nat) (v : scalar) :
  has_shape M r c -> j < r -> i < c ->
  entry (upd j (upd i v (nth j M [])) M) a b =
  if (Nat.eqb a j && Nat.eqb b i)%bool then v else entry M a b.
Proof.
  intros HM Hj Hi. unfold entry.
  rewrite nth_upd by (destruct HM as [Hl _]; lia).
  destruct (Nat.eqb_spec a j) as [->|Hne]; simpl; [|reflexivity].
  now rewrite nth_upd by (rewrite (has_shape_row HM Hj); exact Hi).
Qed.

Lemma vsum_concat (L : list (list Qc)) : vsum (concat L) = vsum (map vsum L).
Proof.
  induction L as [|row L IH]; [reflexivity|].
  simpl concat. rewrite vsum_app, IH. reflexivity.
Qed.

Lemma vsum_map_mask_select {A : Type} (g : A -> scalar) (d : A)
    (mask : list bool) (l : list A) :
  length mask = length l ->
  vsum (map g (Numpy.mask_select mask l)) =
  bigsum (length l) (fun k => if nth k mask false then g (nth k l d) else 0%Qc).
Proof.
  revert mask. induction l as [|x l IH]; intros [|b mask] Hl;
    try discriminate; [reflexivity|].
  simpl length. rewrite bigsum_S_front. simpl nth.
  rewrite <- IH by (simpl in Hl; lia).
  unfold Numpy.mask_select. simpl. destruct b; simpl; [reflexivity|].
  now rewrite Qcplus_0_l.
Qed.

(** The value line 160 stores at [j, i] is the scatter sum at (i, j). *)
Lemma masked_block_sum (dL_dK : matrix) (X X2 : list Z) (i j : nat) :
  has_shape dL_dK (length X) (length X2) ->
  msum (map (Numpy.mask_select (Numpy.eq_mask X2 j))
            (Numpy.mask_select (Numpy.eq_mask X i) dL_dK)) =
  scatter_sum dL_dK X X2 i j.
Proof.
  intros HdL. pose proof HdL as [Hl _]. unfold msum.
  rewrite vsum_concat, map_map.
  rewrite (vsum_map_mask_select _ []) by (now rewrite length_eq_mask).
  unfold scatter_sum.
  fold (bigsum (length X) (fun i0 =>
    vsum (map (fun j0 =>
      if (Z.eqb (nth i0 X 0%Z) (Z.of_nat i) && Z.eqb (nth j0 X2 0%Z) (Z.of_nat j))%bool
      then entry dL_dK i0 j0 else 0%Qc) (seq 0 (length X2))))).
  rewrite Hl. apply bigsum_ext. intros r Hr.
  rewrite nth_eq_mask by exact Hr.
  fold (bigsum (length X2) (fun j0 =>
      if (Z.eqb (nth r X 0%Z) (Z.of_nat i) && Z.eqb (nth j0 X2 0%Z) (Z.of_nat j))%bool
      then entry dL_dK r j0 else 0%Qc)).
  destruct (Z.eqb (nth r X 0%Z) (Z.of_nat i)); simpl.
  - rewrite vsum_mask_select
      by (rewrite length_eq_mask; symmetry; apply (has_shape_row HdL Hr)).
    rewrite (has_shape_row HdL Hr). apply bigsum_ext. intros c Hc.
    now rewrite nth_eq_mask by exact Hc.
  - symmetry. apply bigsum_zero.
Qed.

Lemma gradient_reduce_numpy_correct (self : Coregionalize) (dL_dK : matrix)
    (X X2 : list Z) :
  let D := output_dim self in
  has_shape (B self) D D ->
  has_shape dL_dK (length X) (length X2) ->
  exists small,
    _gradient_reduce_numpy self dL_dK X X2 = Ok small /\
    has_shape small D D /\
    forall a b, a < D -> b < D -> entry small a b = scatter_sum dL_dK X X2 b a.
Proof.
  intros D HB HdL. unfold _gradient_reduce_numpy. fold D.
  set (v i j := msum (map (Numpy.mask_select (Numpy.eq_mask X2 j))
                          (Numpy.mask_select (Numpy.eq_mask X i) dL_dK))).
  destruct (@for_invariant _
    (fun i m => has_shape m D D /\
       forall i' j', i' < i -> j' < D -> entry m j' i' = v i' j')
    D (fun i dL_dK_small =>
         for_ D (fun j dL_dK_small => Numpy.setitem2 dL_dK_small j i (v i j))
           dL_dK_small)
    (Numpy.zeros_like (B self))) as [m [Hm [Hs Hv]]].
  - split; [now apply has_shape_zeros_like|]. intros; lia.
  - intros i m Hi [Hs Hv].
    destruct (@for_invariant _
      (fun j m => has_shape m D D /\
         (forall i' j', i' < i -> j' < D -> entry m j' i' = v i' j') /\
         (forall j', j' < j -> entry m j' i = v i j'))
      D (fun j dL_dK_small => Numpy.setitem2 dL_dK_small j i (v i j)) m)
      as [m' [Hm' [Hs' [Hv1 Hv2]]]].
    + split; [exact Hs|]. split; [exact Hv|]. intros; lia.
    + intros j u Hj [Hus [Hu1 Hu2]].
      rewrite (setitem2_ok _ Hus Hj Hi).
      eexists. split; [reflexivity|]. split; [now apply has_shape_upd2|].
      split.
      * intros i' j' Hi' Hj'. rewrite (entry_upd2 _ _ _ Hus Hj Hi).
        destruct (Nat.eqb_spec i' i) as [->|Hne]; [lia|].
        rewrite andb_false_r. now apply Hu1.
      * intros j' Hj'. rewrite (entry_upd2 _ _ _ Hus Hj Hi).
        rewrite Nat.eqb_refl, andb_true_r.
        destruct (Nat.eqb_spec j' j) as [->|Hne]; [reflexivity|].
        apply Hu2. lia.
    + exists m'. split; [exact Hm'|]. split; [exact Hs'|].
      intros i' j' Hi' Hj'. destruct (Nat.eq_dec i' i) as [->|Hne].
      * now apply Hv2.
      * apply Hv1; lia.
  - exists m. split; [exact Hm|]. split; [exact Hs|].
    intros a b Ha Hb. rewrite Hv by assumption. now apply masked_block_sum.
Qed.

(* ------------------------------------------------------------------ *)
(** * The gradient reduction: inlined C strategy *)

Lemma scatter_sum_bigsum (dL_dK : matrix) (X X2 : list Z) (a b : nat) :
  scatter_sum dL_dK X X2 a b =
  bigsum (length X) (fun i => bigsum (length X2) (fun j =>
    if (Z.eqb (nth i X 0%Z) (Z.of_nat a) && Z.eqb (nth j X2 0%Z) (Z.of_nat b))%bool
    then entry dL_dK i j else 0%Qc)).
Proof. reflexivity. Qed.

Lemma gradient_reduce_code_correct (dL_dK : matrix) (D : nat) (X X2 : list Z)
    (buf : vec) :
  in_range D X -> in_range D X2 ->
  has_shape dL_dK (length X) (length X2) ->
  length buf = D * D ->
  (forall a b, a < D -> b < D -> nth (b + a * D) buf 0%Qc = 0%Qc) ->
  exists t,
    Weave.gradient_reduce_code (length X) (length X2) D X X2 (concat dL_dK) buf
      = Ok t /\
    length t = D * D /\
    forall a b, a < D -> b < D ->
      nth (b + a * D) t 0%Qc = scatter_sum dL_dK X X2 b a.
Proof.
  intros HX HX2 HdL Hlen Hzero.
  set (N := length X) in *. set (M := length X2) in *.
  set (contrib i j a b :=
    if (Z.eqb (nth j X 0%Z) (Z.of_nat b) && Z.eqb (nth i X2 0%Z) (Z.of_nat a))%bool
    then entry dL_dK j i else 0%Qc).
  unfold Weave.gradient_reduce_code.
  destruct (@for_invariant _
    (fun i t => length t = D * D /\
       forall a b, a < D -> b < D ->
         nth (b + a * D) t 0%Qc =
         bigsum i (fun i' => bigsum N (fun j' => contrib i' j' a b)))
    M (fun i dL_dK_small =>
      for_ N (fun j dL_dK_small =>
        xj <- Weave.load 0%Z X (Weave.zi j) ;;
        x2i <- Weave.load 0%Z X2 (Weave.zi i) ;;
        g <- Weave.load 0%Qc (concat dL_dK)
               (Weave.zi i + Weave.zi j * Weave.zi M)%Z ;;
        old <- Weave.load 0%Qc dL_dK_small (xj + Weave.zi D * x2i)%Z ;;
        Weave.store dL_dK_small (xj + Weave.zi D * x2i)%Z (old + g)%Qc)
        dL_dK_small)
    buf) as [t [Ht [Hl Hv]]].
  - split; [exact Hlen|]. intros a b Ha Hb. now rewrite Hzero.
  - intros i t Hi [Hl Hv].
    destruct (@for_invariant _
      (fun j u => length u = D * D /\
         forall a b, a < D -> b < D ->
           nth (b + a * D) u 0%Qc =
           (bigsum i (fun i' => bigsum N (fun j' => contrib i' j' a b))
            + bigsum j (fun j' => contrib i j' a b))%Qc)
      N (fun j dL_dK_small =>
        xj <- Weave.load 0%Z X (Weave.zi j) ;;
        x2i <- Weave.load 0%Z X2 (Weave.zi i) ;;
        g <- Weave.load 0%Qc (concat dL_dK)
               (Weave.zi i + Weave.zi j * Weave.zi M)%Z ;;
        old <- Weave.load 0%Qc dL_dK_small (xj + Weave.zi D * x2i)%Z ;;
        Weave.store dL_dK_small (xj + Weave.zi D * x2i)%Z (old + g)%Qc) t)
      as [t' [Ht' [Hl' Hv']]].
    + split; [exact Hl|]. intros a b Ha Hb.
      rewrite Hv by assumption. rewrite bigsum_0. ring.
    + intros j u Hj [Hlu Hu].
      destruct (in_range_nth HX Hj) as [Hxj Hxj'].
      destruct (in_range_nth HX2 Hi) as [Hxi Hxi'].
      set (xj := Z.to_nat (nth j X 0%Z)) in *.
      set (x2i := Z.to_nat (nth i X2 0%Z)) in *.
      clearbody xj x2i.
      rewrite (load_ok 0%Z X (k := j)) by (auto; reflexivity). simpl.
      rewrite (load_ok 0%Z X2 (k := i)) by (auto; reflexivity). simpl.
      rewrite (load_ok 0%Qc (concat dL_dK) (k := i + j * M));
        [ | unfold Weave.zi; lia
          | rewrite (length_concat_shape HdL); now apply flat_index_lt ].
      simpl. rewrite (nth_concat_shape HdL Hj Hi).
      rewrite (load_ok 0%Qc u (k := xj + x2i * D));
        [ | unfold Weave.zi; lia | rewrite Hlu; now apply flat_index_lt ].
      simpl.
      rewrite (store_ok u (k := xj + x2i * D));
        [ | unfold Weave.zi; lia | rewrite Hlu; now apply flat_index_lt ].
      eexists. split; [reflexivity|]. split; [now rewrite length_upd|].
      intros a b Ha Hb. rewrite bigsum_S.
      rewrite nth_upd by (rewrite Hlu; now apply flat_index_lt).
      destruct (Nat.eqb_spec (b + a * D) (xj + x2i * D)) as [Heq|Hne].
      * apply flat_index_inj in Heq; [|assumption|assumption].
        destruct Heq as [-> ->].
        assert (Hc : contrib i j x2i xj = entry dL_dK j i).
        { unfold contrib. rewrite Hxj', Hxi'. now rewrite !Z.eqb_refl. }
        rewrite Hu, Hc by assumption. ring.
      * rewrite Hu by assumption.
        assert (Hc : contrib i j a b = 0%Qc).
        { unfold contrib.
          destruct (Z.eqb_spec (nth j X 0%Z) (Z.of_nat b)) as [Hb'|]; simpl;
            [|reflexivity].
          destruct (Z.eqb_spec (nth i X2 0%Z) (Z.of_nat a)) as [Ha'|];
            [|reflexivity].
          exfalso. apply Hne.
          assert (b = xj) by lia. assert (a = x2i) by lia. now subst. }
        rewrite Hc. ring.
    + exists t'. split; [exact Ht'|]. split; [exact Hl'|].
      intros a b Ha Hb. rewrite Hv' by assumption. now rewrite bigsum_S.
  - exists t. split; [exact Ht|]. split; [exact Hl|].
    intros a b Ha Hb. rewrite Hv by assumption.
    rewrite scatter_sum_bigsum, bigsum_exchange. reflexivity.
Qed.

(** The inlined reduction on a C-contiguous dL_dK. *)
Lemma gradient_reduce_weave_correct (compiles : nat -> bool)
    (self : Coregionalize) (dL_dK : ndarray) (X X2 : list Z) (p : process) :
  let D := output_dim self in
  has_shape (B self) D D ->
  in_range D X -> in_range D X2 ->
  has_shape (values dL_dK) (length X) (length X2) ->
  c_contiguous dL_dK ->
  compiles (inline_calls p) = true ->
  exists small,
    _gradient_reduce_weave compiles self dL_dK X X2 p =
      (Ok small,
       {| weave_working := weave_working p; inline_calls := S (inline_calls p) |}) /\
    has_shape small D D /\
    forall a b, a < D -> b < D ->
      entry small a b = scatter_sum (values dL_dK) X X2 b a.
Proof.
  intros D HB HX HX2 HdL Hcc Hc.
  unfold _gradient_reduce_weave, inline. rewrite Hc, Hcc. fold D.
  pose proof (has_shape_zeros_like HB) as HZ.
  destruct (@gradient_reduce_code_correct (values dL_dK) D X X2
              (concat (Numpy.zeros_like (B self))) HX HX2 HdL)
    as [t [Ht [Hl Hv]]].
  - now apply length_concat_shape.
  - intros a b Ha Hb. rewrite (nth_concat_shape HZ Ha Hb).
    apply entry_zeros_like.
  - rewrite Ht. simpl. rewrite (shape1_square HB), (proj1 HB).
    eexists. split; [reflexivity|]. split.
    + now apply has_shape_reshape.
    + intros a b Ha Hb. rewrite entry_reshape by assumption. now apply Hv.
Qed.

(* ------------------------------------------------------------------ *)
(** * Comparing computed arrays *)

Lemma vec_eqb_eq (u v : vec) : vec_eqb u v = true -> u = v.
Proof.
  unfold vec_eqb. rewrite andb_true_iff, Nat.eqb_eq.
  revert v. induction u as [|x u IH]; intros [|y v] [Hl H]; try discriminate;
    [reflexivity|].
  simpl in H. apply andb_true_iff in H. destruct H as [Hxy H].
  apply Qc_eq_bool_correct in Hxy. subst y. f_equal.
  apply IH. split; [simpl in Hl; lia|exact H].
Qed.

Lemma matrix_eqb_eq (M N : matrix) : matrix_eqb M N = true -> M = N.
Proof.
  unfold matrix_eqb. rewrite andb_true_iff, Nat.eqb_eq.
  revert N. induction M as [|x M IH]; intros [|y N] [Hl H]; try discriminate;
    [reflexivity|].
  simpl in H. apply andb_true_iff in H. destruct H as [Hxy H].
  apply vec_eqb_eq in Hxy. subst y. f_equal.
  apply IH. split; [simpl in Hl; lia|exact H].
Qed.

(* ------------------------------------------------------------------ *)
(** * The gradient reduction *)



(* ------------------------------------------------------------------ *)
(** * The full gradient *)

(** What lines 134-139 store, given the reduced matrix. *)
Lemma gradients_of_small (self : Coregionalize) (small : matrix) :
  let D := output_dim self in
  well_shaped self -> has_shape small D D ->
  let sym := Numpy.madd small (Numpy.transpose (Numpy.shape1 small) small) in
  let dW :=
    map (fun r => map (fun k =>
      vsum (map (fun c => (entry (W self) c k * entry sym c r)%Qc)
                (seq 0 (length (W self)))))
      (seq 0 (rank self))) (seq 0 (Numpy.shape1 sym)) in
  has_shape sym D D /\
  (forall a b, a < D -> b < D ->
     entry sym a b = (entry small a b + entry small b a)%Qc) /\
  length (Numpy.diagonal sym) = D /\
  (forall a, a < D ->
     nth a (Numpy.diagonal sym) 0%Qc = (entry small a a + entry small a a)%Qc) /\
  has_shape dW D (rank self) /\
  (forall r k, r < D -> k < rank self ->
     entry dW r k =
     bigsum D (fun c => ((entry small c r + entry small r c) * entry (W self) c k)%Qc)).
Proof.
  intros D [HW Hk] Hsm sym dW.
  assert (Ht : has_shape (Numpy.transpose (Numpy.shape1 small) small) D D).
  { rewrite (shape1_square Hsm). apply has_shape_transpose, Hsm. }
  assert (Hsym : has_shape sym D D) by (now apply has_shape_madd).
  assert (Hent : forall a b, a < D -> b < D ->
            entry sym a b = (entry small a b + entry small b a)%Qc).
  { intros a b Ha Hb. unfold sym.
    rewrite (entry_madd Hsm Ht Ha Hb). f_equal.
    rewrite (shape1_square Hsm).
    apply entry_transpose; [exact Ha|]. now rewrite (proj1 Hsm). }
  split; [exact Hsym|]. split; [exact Hent|].
  split; [now apply length_diagonal|]. split.
  - intros a Ha. rewrite (nth_diagonal Hsym Ha). now apply Hent.
  - unfold dW. rewrite (shape1_square Hsym), (proj1 HW). fold D. split.
    + apply has_shape_map_seq.
    + intros r k Hr Hk'. rewrite entry_map_seq by assumption.
      apply bigsum_ext. intros c Hc. rewrite Hent by assumption. ring.
Qed.

(** What [update_gradients_full] stores when the reduction is run by numpy,
    or by the inlined code at its first attempt: the gradient of W is
    (small + small^T) W for the scatter sum small, and the gradient of kappa
    is the diagonal of small + small^T, twice the diagonal of small. *)
Lemma update_gradients_full_stores (compiles : nat -> bool)
    (self : Coregionalize) (dL_dK : ndarray) (X : list Z) (X2 : option (list Z))
    (p : process) :
  let D := output_dim self in
  let small := scatter_sum (values dL_dK) X (second_index X X2) in
  well_shaped self -> synced self ->
  in_range D X -> in_range D (second_index X X2) ->
  has_shape (values dL_dK) (length X) (length (second_index X X2)) ->
  weave_working p = false \/
    (compiles (inline_calls p) = true /\ c_contiguous dL_dK) ->
  exists self',
    fst (update_gradients_full compiles self dL_dK X X2 p) = Ok self' /\
    length (kappa_gradient self') = D /\
    (forall a, a < D ->
       nth a (kappa_gradient self') 0%Qc = (small a a + small a a)%Qc) /\
    has_shape (W_gradient self') D (rank self) /\
    (forall r k, r < D -> k < rank self ->
       entry (W_gradient self') r k =
       bigsum D (fun c => ((small r c + small c r) * entry (W self) c k)%Qc)).
Proof.
  intros D small Hw Hs HX HX2 HdL Hpath.
  pose proof (synced_shape Hw Hs) as HB.
  assert (Hred : exists m p',
    (if weave_working p
     then match _gradient_reduce_weave compiles self dL_dK X (second_index X X2) p with
          | (Raise _, p') =>
              _gradient_reduce_weave compiles self dL_dK X (second_index X X2)
                (config_set_working false p')
          | r => r
          end
     else (_gradient_reduce_numpy self (values dL_dK) X (second_index X X2), p))
      = (Ok m, p') /\
    has_shape m D D /\
    forall a b, a < D -> b < D -> entry m a b = small b a).
  { destruct (weave_working p) eqn:Hflag.
    - destruct Hpath as [Hf|[Hc Hcc]]; [discriminate|].
      destruct (@gradient_reduce_weave_correct compiles self dL_dK X
                  (second_index X X2) p HB HX HX2 HdL Hcc Hc)
        as [m [Hm [Hsh Hent]]].
      rewrite Hm. eauto.
    - destruct (@gradient_reduce_numpy_correct self (values dL_dK) X
                  (second_index X X2) HB HdL) as [m [Hm [Hsh Hent]]].
      rewrite Hm. eauto. }
  destruct Hred as [m [p' [Hred [Hsh Hent]]]].
  unfold update_gradients_full.
  change (match X2 with Some X3 => X3 | None => X end) with (second_index X X2).
  rewrite Hred. cbn [bind fst].
  destruct (@gradients_of_small self m Hw Hsh)
    as [_ [_ [Hkl [Hkv [HdW HdWv]]]]].
  eexists. split; [reflexivity|]. cbn [kappa_gradient W_gradient].
  split; [exact Hkl|]. split; [|split; [exact HdW|]].
  - intros a Ha. rewrite (Hkv a Ha). now rewrite Hent.
  - intros r k Hr Hk. rewrite (HdWv r k Hr Hk).
    apply bigsum_ext. intros c Hc. now rewrite !Hent.
Qed.

(** C2 at one output, W = [[1]], kappa = [0.5], X = [0], X2 omitted and
    dL_dK = [[1]], with the numpy strategy: the scatter sum at (0, 0) is 1,
    the stored gradient of kappa is 2.  The gradient of W is
    (small + small^T) W = [[2]], as the specification has it. *)
Theorem C2_kappa_gradient_doubled :
  exists self',
    fst (update_gradients_full (always true) kernel_1 (np_array [[q 1]])
           [0%Z] None (fresh_process false)) = Ok self' /\
    scatter_sum [[q 1]] [0%Z] [0%Z] 0 0 = q 1 /\
    kappa_gradient self' = [q 2] /\
    W_gradient self' = [[q 2]].
Proof.
  eexists. split; [reflexivity|]. split; [|split].
  - apply Qc_is_canon. reflexivity.
  - apply vec_eqb_eq. vm_compute. reflexivity.
  - apply matrix_eqb_eq. vm_compute. reflexivity.
Qed.

(** [K] recovers from a failure of the inlined code: it clears the flag and
    returns what [_K_numpy] returns. *)
Lemma K_falls_back (compiles : nat -> bool) (uninitialised : nat -> scalar)
    (self : Coregionalize) (X : list Z) (X2 : option (list Z)) (p : process) :
  weave_working p = true -> compiles (inline_calls p) = false ->
  K compiles uninitialised self X X2 p =
  (_K_numpy self X X2,
   {| weave_working := false; inline_calls := S (inline_calls p) |}).
Proof.
  intros Hf Hc. unfold K, _K_weave, inline. rewrite Hf, Hc.
  destruct X2; reflexivity.
Qed.

(** Once the flag is cleared [K] no longer attempts the inlined code. *)
Lemma K_flag_cleared (compiles : nat -> bool) (uninitialised : nat -> scalar)
    (self : Coregionalize) (X : list Z) (X2 : option (list Z)) (p : process) :
  weave_working p = false ->
  K compiles uninitialised self X X2 p = (_K_numpy self X X2, p).
Proof. intros Hf. unfold K. now rewrite Hf. Qed.

(** [update_gradients_full] clears the flag as well, but its handler calls
    the inlined reduction a second time (line 128): when that attempt fails
    too, the exception reaches the caller. *)
Lemma update_gradients_full_raises (compiles : nat -> bool)
    (self : Coregionalize) (dL_dK : ndarray) (X : list Z) (X2 : option (list Z))
    (p : process) :
  weave_working p = true ->
  compiles (inline_calls p) = false ->
  compiles (S (inline_calls p)) = false ->
  update_gradients_full compiles self dL_dK X X2 p =
  (Raise WeaveError,
   {| weave_working := false; inline_calls := S (S (inline_calls p)) |}).
Proof.
  intros Hf Hc1 Hc2.
  unfold update_gradients_full, _gradient_reduce_weave, inline.
  rewrite Hf, Hc1. cbn [config_set_working inline_calls weave_working].
  rewrite Hc2. reflexivity.
Qed.

(** C4 at one output, X = [0], dL_dK = [[1]], the flag set and an inlined
    code that cannot be run: [K] returns the numpy result and clears the
    flag; [update_gradients_full] clears the flag and raises, although the
    numpy reduction of the same input returns normally. *)
Theorem C4_gradient_fallback_raises :
  K (always false) junk kernel_1 [0%Z] None (fresh_process true) =
    (_K_numpy kernel_1 [0%Z] None,
     {| weave_working := false; inline_calls := 1 |}) /\
  update_gradients_full (always false) kernel_1 (np_array [[q 1]]) [0%Z] None
      (fresh_process true) =
    (Raise WeaveError, {| weave_working := false; inline_calls := 2 |}) /\
  exists small, _gradient_reduce_numpy kernel_1 [[q 1]] [0%Z] [0%Z] = Ok small.
Proof.
  split; [|split].
  - now apply K_falls_back.
  - now apply update_gradients_full_raises.
  - eexists. reflexivity.
Qed.

(* ------------------------------------------------------------------ *)
(** * The theorems at concrete kernels *)

Ltac shape_now := split; [reflexivity | repeat constructor].
Ltac well_shaped_now := split; [shape_now | reflexivity].
Ltac in_range_now :=
  unfold in_range; repeat (apply Forall_cons; [cbn; lia|]); apply Forall_nil.

(** C9 at rank = output_dim = 1: the rank is not below output_dim, and
    nothing is printed. *)
Lemma C9_counterexample :
  ~ (1 >= 1 -> In rank_warning (fst (__init__ (fun _ _ => q 0) 1 1 1 None None))).
Proof. intros H. exact (H (le_n 1)). Qed.





Lemma C7_witness :
  Numpy.transpose 3 (B kernel_3) = B kernel_3 /\
  (0 <= quadratic_form (B kernel_3) [q 1; q (-2); q 1])%Qc.
Proof.
  assert (Hw : well_shaped kernel_3) by well_shaped_now.
  destruct (C7_B_symmetric_psd Hw) as [_ [_ [Hsym Hpsd]]].
  split; [exact Hsym|]. apply Hpsd.
  - repeat constructor; vm_compute; discriminate.
  - reflexivity.
Defined.

Lemma C8_witness :
  let self' := update_gradients_diag kernel_2 [q 1; q 10; q 100] [0%Z; 1%Z; 1%Z] in
  nth 1 (kappa_gradient self') 0%Qc =
    channel_sum [q 1; q 10; q 100] [0%Z; 1%Z; 1%Z] 1 /\
  entry (W_gradient self') 1 0 =
    (two * entry (W kernel_2) 1 0
     * channel_sum [q 1; q 10; q 100] [0%Z; 1%Z; 1%Z] 1)%Qc.
Proof.
  destruct (@C8_update_gradients_diag kernel_2 [q 1; q 10; q 100]
              [0%Z; 1%Z; 1%Z]) as [_ [Hk [_ HW]]].
  - well_shaped_now.
  - reflexivity.
  - in_range_now.
  - split; [apply Hk; simpl; lia|apply HW; simpl; lia].
Defined.

Lemma C9_witness :
  fst (__init__ (fun _ _ => q 0) 1 2 3 None None) = [rank_warning] /\
  (exists self, snd (__init__ (fun _ _ => q 0) 1 2 3 None None) = Ok self) /\
  snd (__init__ (fun _ _ => q 0) 1 2 1 (Some [[q 1]]) None) = Raise AssertionError.
Proof.
  split; [|split].
  - apply (proj1 (proj2 (proj2 (C9_init (fun _ _ => q 0) 1 2 3 None None)))).
    simpl. lia.
  - apply (proj1 (proj2 (C9_init (fun _ _ => q 0) 1 2 3 None None))).
    intros [[Wm [HW _]]|[k [Hk _]]]; discriminate.
  - apply (proj1 (C9_init (fun _ _ => q 0) 1 2 1 (Some [[q 1]]) None)).
    left. exists [[q 1]]. split; [reflexivity|].
    intros [Hl _]. discriminate Hl.
Defined.

(** C10 with three outputs.  K(X = [5], X2 = []) returns an array with one
    row and no column although 5 is not below output_dim, and a caller's
    label 2^64 - 1 is converted to -1, which Kdiag accepts. *)
Lemma C10_counterexample :
  ~ (forall v, In v [5%Z] -> (Z.of_nat (output_dim kernel_3) <= v)%Z ->
       exists e,
         _K_numpy kernel_3 (Numpy.asarray_int [5%Z])
           (Some (Numpy.asarray_int [])) = Raise e) /\
  ~ (forall v, In v [18446744073709551615%Z] ->
       (Z.of_nat (output_dim kernel_3) <= v)%Z ->
       exists e,
         Kdiag kernel_3 (Numpy.asarray_int [18446744073709551615%Z]) = Raise e).
Proof.
  split; intros H.
  - destruct (H 5%Z) as [e He]; [now left|simpl; lia|].
    vm_compute in He. discriminate He.
  - destruct (H 18446744073709551615%Z) as [e He]; [now left|simpl; lia|].
    vm_compute in He. discriminate He.
Qed.

Lemma C10_witness :
  Kdiag kernel_3 (Numpy.asarray_int [0%Z; 3%Z]) = Raise IndexError /\
  _K_numpy kernel_3 (Numpy.asarray_int [0%Z; 3%Z]) None = Raise IndexError /\
  _K_numpy kernel_3 (Numpy.asarray_int [0%Z; 3%Z])
    (Some (Numpy.asarray_int [1%Z])) = Raise IndexError /\
  Kdiag kernel_3 (Numpy.asarray_int [(-1)%Z; 0%Z]) =
    Ok [entry (B kernel_3) 2 2; entry (B kernel_3) 0 0].
Proof.
  assert (HB : has_shape (B kernel_3) 3 3) by shape_now.
  destruct (@C10_numpy_bounds kernel_3 [0%Z; 3%Z] [1%Z] HB) as [Habove _].
  destruct (Habove 3%Z) as [H1 [H2 H3]];
    [simpl; auto|vm_compute; discriminate|].
  destruct (H3 ltac:(discriminate)) as [H4 _].
  destruct (@C10_numpy_bounds kernel_3 [(-1)%Z; 0%Z] [] HB)
    as [_ [_ [Hneg _]]].
  destruct Hneg as [H5 _].
  - repeat (apply Forall_cons;
              [split; [vm_compute; discriminate|vm_compute; reflexivity]|]).
    apply Forall_nil.
  - apply Forall_nil.
  - split; [exact H1|]. split; [exact H2|]. split; [exact H4|exact H5].
Defined.

(* ------------------------------------------------------------------ *)
(** * The acceleration flag over calls *)

Lemma no_raise_bind {A B : Type} (c : outcome A) (k : A -> outcome B) :
  no_raise c -> (forall a, no_raise (k a)) -> no_raise (bind c k).
Proof.
  intros Hc Hk e. destruct c as [a|e'|]; simpl.
  - apply Hk.
  - exfalso. now apply (Hc e').
  - discriminate.
Qed.

Lemma no_raise_load {A : Type} (d : A) (buf : list A) (k : Z) :
  no_raise (Weave.load d buf k).
Proof. intros e. unfold Weave.load. destruct (Weave.in_buffer buf k); discriminate. Qed.

Lemma no_raise_store {A : Type} (buf : list A) (k : Z) (v : A) :
  no_raise (Weave.store buf k v).
Proof. intros e. unfold Weave.store. destruct (Weave.in_buffer buf k); discriminate. Qed.

Lemma no_raise_for {S : Type} (n : nat) (body : nat -> S -> outcome S) (s : S) :
  (forall i t, no_raise (body i t)) -> no_raise (for_ n body s).
Proof.
  intros Hb. induction n as [|n IH].
  - intros e. discriminate.
  - rewrite for_S. apply no_raise_bind; [exact IH|]. intros t. apply Hb.
Qed.

Ltac no_raise_now :=
  repeat first
    [ apply no_raise_load | apply no_raise_store
    | apply no_raise_for; intros
    | apply no_raise_bind; [|intros] ].

Lemma no_raise_K_code_symmetric (N D : nat) (X : list Z) (Bf target : vec) :
  no_raise (Weave.K_code_symmetric N D X Bf target).
Proof. unfold Weave.K_code_symmetric. no_raise_now. Qed.

Lemma no_raise_K_code_general (N M D : nat) (X X2 : list Z) (Bf target : vec) :
  no_raise (Weave.K_code_general N M D X X2 Bf target).
Proof. unfold Weave.K_code_general. no_raise_now. Qed.

Lemma no_raise_gradient_reduce_code (N M D : nat) (X X2 : list Z) (g buf : vec) :
  no_raise (Weave.gradient_reduce_code N M D X X2 g buf).
Proof. unfold Weave.gradient_reduce_code. no_raise_now. Qed.

Lemma no_raise_then_Ok {A B : Type} (c : outcome A) (f : A -> B) :
  no_raise c -> no_raise (bind c (fun a => Ok (f a))).
Proof. intros Hc. apply no_raise_bind; [exact Hc|]. intros a e. discriminate. Qed.

Lemma K_weave_state (compiles : nat -> bool) (uninitialised : nat -> scalar)
    (self : Coregionalize) (X : list Z) (X2 : option (list Z)) (p : process) :
  snd (_K_weave compiles uninitialised self X X2 p) =
    {| weave_working := weave_working p; inline_calls := S (inline_calls p) |} /\
  (compiles (inline_calls p) = true ->
     no_raise (fst (_K_weave compiles uninitialised self X X2 p))) /\
  (compiles (inline_calls p) = false ->
     fst (_K_weave compiles uninitialised self X X2 p) = Raise WeaveError).
Proof.
  unfold _K_weave, inline.
  destruct X2 as [X2|]; destruct (compiles (inline_calls p)); simpl;
    (split; [reflexivity|]); split; intros H; try discriminate H;
    try reflexivity.
  - apply no_raise_then_Ok, no_raise_K_code_general.
  - apply no_raise_then_Ok, no_raise_K_code_symmetric.
Qed.

Lemma K_snd (compiles : nat -> bool) (uninitialised : nat -> scalar)
    (self : Coregionalize) (X : list Z) (X2 : option (list Z)) (p : process) :
  snd (K compiles uninitialised self X X2 p) =
  if weave_working p
  then {| weave_working := compiles (inline_calls p);
          inline_calls := S (inline_calls p) |}
  else p.
Proof.
  unfold K. destruct (weave_working p) eqn:Hf; [|reflexivity].
  destruct (K_weave_state compiles uninitialised self X X2 p) as [Hs [Ht Hr]].
  destruct (_K_weave compiles uninitialised self X X2 p) as [r p'].
  simpl in Hs, Ht, Hr. subst p'. rewrite Hf.
  destruct (compiles (inline_calls p)) eqn:Hc.
  - specialize (Ht eq_refl). destruct r as [R|e|]; try reflexivity.
    exfalso. now apply (Ht e).
  - rewrite (Hr eq_refl). reflexivity.
Qed.

Lemma gradient_reduce_weave_state (compiles : nat -> bool)
    (self : Coregionalize) (dL_dK : ndarray) (X X2 : list Z) (p : process) :
  snd (_gradient_reduce_weave compiles self dL_dK X X2 p) =
    {| weave_working := weave_working p; inline_calls := S (inline_calls p) |} /\
  (compiles (inline_calls p) = true ->
     no_raise (fst (_gradient_reduce_weave compiles self dL_dK X X2 p))) /\
  (compiles (inline_calls p) = false ->
     fst (_gradient_reduce_weave compiles self dL_dK X X2 p) = Raise WeaveError).
Proof.
  unfold _gradient_reduce_weave, inline.
  destruct (compiles (inline_calls p)); simpl;
    (split; [reflexivity|]); split; intros H; try discriminate H;
    try reflexivity.
  apply no_raise_then_Ok, no_raise_gradient_reduce_code.
Qed.

Lemma update_gradients_full_snd (compiles : nat -> bool)
    (self : Coregionalize) (dL_dK : ndarray) (X : list Z) (X2 : option (list Z))
    (p : process) :
  snd (update_gradients_full compiles self dL_dK X X2 p) =
  if weave_working p
  then if compiles (inline_calls p)
       then {| weave_working := true; inline_calls := S (inline_calls p) |}
       else {| weave_working := false; inline_calls := S (S (inline_calls p)) |}
  else p.
Proof.
  unfold update_gradients_full.
  set (index2 := match X2 with Some X3 => X3 | None => X end).
  destruct (weave_working p) eqn:Hf; [|reflexivity].
  destruct (gradient_reduce_weave_state compiles self dL_dK X index2 p)
    as [Hs [Ht Hr]].
  destruct (_gradient_reduce_weave compiles self dL_dK X index2 p) as [r p'] eqn:E.
  simpl in Hs, Ht, Hr. subst p'. rewrite Hf.
  destruct (compiles (inline_calls p)) eqn:Hc.
  - specialize (Ht eq_refl). destruct r as [R|e|]; try reflexivity.
    exfalso. now apply (Ht e).
  - rewrite (Hr eq_refl).
    destruct (gradient_reduce_weave_state compiles self dL_dK X index2
                (config_set_working false
                   {| weave_working := true; inline_calls := S (inline_calls p) |}))
      as [Hs' _].
    destruct (_gradient_reduce_weave compiles self dL_dK X index2
                (config_set_working false
                   {| weave_working := true; inline_calls := S (inline_calls p) |}))
      as [r' p''].
    simpl in Hs'. subst p''. reflexivity.
Qed.

(** X1: [K] and the flag.  [K] never sets the flag; a call with the flag
    clear leaves the process state alone; a call with the flag set calls
    [weave.inline] at most once, and the flag is still set afterwards only
    if that call succeeded. *)
Theorem K_flag_transition (compiles : nat -> bool) (uninitialised : nat -> scalar)
    (self : Coregionalize) (X : list Z) (X2 : option (list Z)) (p : process) :
  let p' := snd (K compiles uninitialised self X X2 p) in
  (weave_working p' = true ->
   weave_working p = true /\ compiles (inline_calls p) = true) /\
  inline_calls p <= inline_calls p' <= S (inline_calls p) /\
  (weave_working p = false -> p' = p).
Proof.
  intros p'. subst p'. rewrite K_snd.
  destruct (weave_working p) eqn:Hf; cbn [weave_working inline_calls].
  - split; [intros H; now split|]. split; [lia|]. intros H. discriminate H.
  - split; [intros H; rewrite Hf in H; discriminate H|].
    split; [lia|reflexivity].
Qed.

(** X2: [update_gradients_full] and the flag: with the flag clear the process
    state is left alone; with the flag set, [weave.inline] is called once if
    it succeeds and twice if the first call fails, and the flag stays set
    exactly when the first call succeeded. *)
Theorem update_gradients_full_flag_transition (compiles : nat -> bool)
    (self : Coregionalize) (dL_dK : ndarray) (X : list Z) (X2 : option (list Z))
    (p : process) :
  let p' := snd (update_gradients_full compiles self dL_dK X X2 p) in
  weave_working p' = (weave_working p && compiles (inline_calls p))%bool /\
  inline_calls p' =
    (if weave_working p
     then if compiles (inline_calls p) then S (inline_calls p)
          else S (S (inline_calls p))
     else inline_calls p) /\
  (weave_working p = false -> p' = p).
Proof.
  intros p'. subst p'. rewrite update_gradients_full_snd.
  destruct (weave_working p) eqn:Hf; simpl.
  - destruct (compiles (inline_calls p)); simpl; repeat split; auto;
      try (intros H; discriminate H); try lia.
  - repeat split; auto.
Qed.

Lemma run_call_snd (compiles : nat -> bool) (uninitialised : nat -> scalar)
    (c : call) (s : Coregionalize * process) :
  snd (run_call compiles uninitialised c s) =
  match c with
  | Call_K X X2 => snd (K compiles uninitialised (fst s) X X2 (snd s))
  | Call_update_gradients_full dL_dK X X2 =>
      snd (update_gradients_full compiles (fst s) dL_dK X X2 (snd s))
  end.
Proof.
  destruct c as [X X2|dL_dK X X2]; simpl; [reflexivity|].
  destruct (update_gradients_full compiles (fst s) dL_dK X X2 (snd s))
    as [[self'|e|] p']; reflexivity.
Qed.

(** X3: The downgrade is permanent: over any sequence of calls of [K] and
    [update_gradients_full] the flag is never switched on, and once it is
    clear no later call attempts the inlined code (the process state no
    longer changes). *)
Theorem flag_downgrade_is_permanent (compiles : nat -> bool)
    (uninitialised : nat -> scalar) (cs : list call)
    (s : Coregionalize * process) :
  let s' := run_calls compiles uninitialised cs s in
  (weave_working (snd s') = true -> weave_working (snd s) = true) /\
  (weave_working (snd s) = false -> snd s' = snd s) /\
  inline_calls (snd s) <= inline_calls (snd s').
Proof.
  unfold run_calls. revert s. induction cs as [|c cs IH]; intros s; simpl.
  - repeat split; auto.
  - destruct (IH (run_call compiles uninitialised c s)) as [H1 [H2 H3]].
    assert (Hstep :
      weave_working (snd (run_call compiles uninitialised c s)) =
        (weave_working (snd s)
         && compiles (inline_calls (snd s)))%bool /\
      inline_calls (snd s)
        <= inline_calls (snd (run_call compiles uninitialised c s)) /\
      (weave_working (snd s) = false ->
       snd (run_call compiles uninitialised c s) = snd s)).
    { rewrite run_call_snd. destruct c as [X X2|dL_dK X X2].
      - rewrite K_snd. destruct (weave_working (snd s)) eqn:Hf; simpl;
          repeat split; auto; try (intros H; discriminate H); try lia.
      - rewrite update_gradients_full_snd.
        destruct (weave_working (snd s)) eqn:Hf; simpl;
          [destruct (compiles (inline_calls (snd s))); simpl|];
          repeat split; auto; try (intros H; discriminate H); try lia. }
    destruct Hstep as [Hf [Hc Hid]]. split; [|split].
    + intros Ht. specialize (H1 Ht). rewrite Hf in H1.
      now apply andb_true_iff in H1.
    + intros Hoff. rewrite H2; [now apply Hid|].
      rewrite Hf, Hoff. reflexivity.
    + lia.
Qed.

(* ------------------------------------------------------------------ *)
(** * The full gradient over the two strategies *)

(** The reduction stage of [update_gradients_full] decides its result. *)
Lemma update_gradients_full_of_reduced (compiles : nat -> bool)
    (self : Coregionalize) (dL_dK : ndarray) (X : list Z) (X2 : option (list Z))
    (p q : process) :
  let index2 := second_index X X2 in
  fst (if weave_working p
       then match _gradient_reduce_weave compiles self dL_dK X index2 p with
            | (Raise _, p') =>
                _gradient_reduce_weave compiles self dL_dK X index2
                  (config_set_working false p')
            | r => r
            end
       else (_gradient_reduce_numpy self (values dL_dK) X index2, p)) =
  fst (if weave_working q
       then match _gradient_reduce_weave compiles self dL_dK X index2 q with
            | (Raise _, q') =>
                _gradient_reduce_weave compiles self dL_dK X index2
                  (config_set_working false q')
            | r => r
            end
       else (_gradient_reduce_numpy self (values dL_dK) X index2, q)) ->
  fst (update_gradients_full compiles self dL_dK X X2 p) =
  fst (update_gradients_full compiles self dL_dK X X2 q).
Proof.
  intros index2 H. unfold update_gradients_full.
  change (match X2 with Some X3 => X3 | None => X end) with index2.
  destruct (if weave_working p
            then match _gradient_reduce_weave compiles self dL_dK X index2 p with
                 | (Raise _, p') =>
                     _gradient_reduce_weave compiles self dL_dK X index2
                       (config_set_working false p')
                 | r => r
                 end
            else (_gradient_reduce_numpy self (values dL_dK) X index2, p)) as [r1 p1].
  destruct (if weave_working q
            then match _gradient_reduce_weave compiles self dL_dK X index2 q with
                 | (Raise _, q') =>
                     _gradient_reduce_weave compiles self dL_dK X index2
                       (config_set_working false q')
                 | r => r
                 end
            else (_gradient_reduce_numpy self (values dL_dK) X index2, q)) as [r2 p2].
  simpl in H. subst r2. reflexivity.
Qed.


(** X4: A failure of [update_gradients_full] is surfaced once: when both
    attempts at the inlined reduction fail the call raises, but it has
    cleared the flag, and the same call made again returns the gradients of
    the numpy strategy without attempting the inlined code. *)
Theorem update_gradients_full_retry (compiles : nat -> bool)
    (self : Coregionalize) (dL_dK : ndarray) (X : list Z) (X2 : option (list Z))
    (p q : process) :
  let D := output_dim self in
  well_shaped self -> synced self ->
  in_range D X -> in_range D (second_index X X2) ->
  has_shape (values dL_dK) (length X) (length (second_index X X2)) ->
  weave_working p = true ->
  compiles (inline_calls p) = false -> compiles (S (inline_calls p)) = false ->
  weave_working q = false ->
  let first := update_gradients_full compiles self dL_dK X X2 p in
  let again := update_gradients_full compiles self dL_dK X X2 (snd first) in
  fst first = Raise WeaveError /\
  snd again = snd first /\
  fst again = fst (update_gradients_full compiles self dL_dK X X2 q) /\
  exists self', fst again = Ok self'.
Proof.
  intros D Hw Hs HX HX2 HdL Hp Hc1 Hc2 Hq first again.
  assert (Hfirst : first =
            (Raise WeaveError,
             {| weave_working := false; inline_calls := S (S (inline_calls p)) |}))
    by (now apply update_gradients_full_raises).
  split; [now rewrite Hfirst|].
  assert (Hoff : weave_working (snd first) = false) by (now rewrite Hfirst).
  split; [|split].
  - unfold again. rewrite update_gradients_full_snd, Hoff. reflexivity.
  - unfold again. apply update_gradients_full_of_reduced.
    now rewrite Hoff, Hq.
  - destruct (@update_gradients_full_stores compiles self dL_dK X X2 (snd first)
                Hw Hs HX HX2 HdL (or_introl Hoff)) as [self' [H _]].
    eauto.
Qed.

(* ------------------------------------------------------------------ *)
(** * Sums grouped by channel *)

Lemma bigsum_delta (n k : nat) (h : nat -> scalar) :
  k < n -> bigsum n (fun a => if Nat.eqb a k then h a else 0%Qc) = h k.
Proof.
  intros Hk. rewrite <- (bigsum_single (h k) Hk).
  apply bigsum_ext. intros a _.
  destruct (Nat.eqb_spec a k) as [->|]; reflexivity.
Qed.

Lemma label_eqb (D : nat) (x : Z) (a : nat) :
  (0 <= x < Z.of_nat D)%Z ->
  Z.eqb x (Z.of_nat a) = Nat.eqb a (Z.to_nat x).
Proof.
  intros Hx. destruct (Z.eqb_spec x (Z.of_nat a)) as [->|Hne].
  - now rewrite Nat2Z.id, Nat.eqb_refl.
  - symmetry. apply Nat.eqb_neq. intros ->. apply Hne. lia.
Qed.

Lemma in_range_label (D : nat) (X : list Z) (i : nat) :
  in_range D X -> i < length X -> (0 <= nth i X 0 < Z.of_nat D)%Z.
Proof.
  intros HX Hi. unfold in_range in HX. rewrite Forall_forall in HX.
  apply HX, nth_In, Hi.
Qed.

(** A sum over observations, weighted by a function of the label, is the sum
    over channels of the channel totals. *)
Lemma regroup (D : nat) (X : list Z) (f : nat -> scalar) (g : nat -> scalar) :
  in_range D X ->
  bigsum (length X) (fun i => (f i * g (Z.to_nat (nth i X 0%Z)))%Qc) =
  bigsum D (fun a =>
    (bigsum (length X)
       (fun i => if Z.eqb (nth i X 0%Z) (Z.of_nat a) then f i else 0%Qc)
     * g a)%Qc).
Proof.
  intros HX.
  rewrite (@bigsum_ext D _ (fun a => bigsum (length X) (fun i =>
     if Z.eqb (nth i X 0%Z) (Z.of_nat a) then (f i * g a)%Qc else 0%Qc))).
  - rewrite bigsum_exchange. apply bigsum_ext. intros i Hi.
    pose proof (in_range_label HX Hi) as Hx.
    rewrite (@bigsum_ext D _ (fun a =>
       if Nat.eqb a (Z.to_nat (nth i X 0%Z)) then (f i * g a)%Qc else 0%Qc))
      by (intros a _; now rewrite (@label_eqb D (nth i X 0%Z) a Hx)).
    rewrite bigsum_delta by lia. reflexivity.
  - intros a _. rewrite <- bigsum_scale_r. apply bigsum_ext. intros i _.
    destruct (Z.eqb (nth i X 0%Z) (Z.of_nat a)); ring.
Qed.

Lemma regroup2 (D : nat) (X X2 : list Z) (F : nat -> nat -> scalar)
    (g : nat -> nat -> scalar) :
  in_range D X -> in_range D X2 ->
  bigsum (length X) (fun i => bigsum (length X2) (fun j =>
    (F i j * g (Z.to_nat (nth i X 0%Z)) (Z.to_nat (nth j X2 0%Z)))%Qc)) =
  bigsum D (fun a => bigsum D (fun b =>
    (bigsum (length X) (fun i => bigsum (length X2) (fun j =>
       if (Z.eqb (nth i X 0%Z) (Z.of_nat a) && Z.eqb (nth j X2 0%Z) (Z.of_nat b))%bool
       then F i j else 0%Qc))
     * g a b)%Qc)).
Proof.
  intros HX HX2.
  (* inner sums over j, for each i *)
  rewrite (@bigsum_ext (length X) _ (fun i => bigsum D (fun b =>
     (bigsum (length X2) (fun j =>
        if Z.eqb (nth j X2 0%Z) (Z.of_nat b) then F i j else 0%Qc)
      * g (Z.to_nat (nth i X 0%Z)) b)%Qc)))
    by (intros i _; apply (@regroup D X2 (F i) (g (Z.to_nat (nth i X 0%Z))) HX2)).
  rewrite bigsum_exchange.
  rewrite (bigsum_exchange D D). apply bigsum_ext. intros b _.
  rewrite (@regroup D X
             (fun i => bigsum (length X2) (fun j =>
                if Z.eqb (nth j X2 0%Z) (Z.of_nat b) then F i j else 0%Qc))
             (fun a => g a b) HX).
  apply bigsum_ext. intros a _. f_equal.
  apply bigsum_ext. intros i _.
  destruct (Z.eqb (nth i X 0%Z) (Z.of_nat a)); simpl; [reflexivity|].
  symmetry. apply bigsum_zero.
Qed.

Lemma channel_sum_bigsum (dL_dKdiag : vec) (X : list Z) (a : nat) :
  channel_sum dL_dKdiag X a =
  bigsum (length X) (fun i => if Z.eqb (nth i X 0%Z) (Z.of_nat a)
                              then nth i dL_dKdiag 0%Qc else 0%Qc).
Proof. reflexivity. Qed.

Lemma two_is_1_plus_1 : two = (1 + 1)%Qc.
Proof. apply Qc_is_canon. reflexivity. Qed.

(* ------------------------------------------------------------------ *)
(** * Kdiag and the diagonal gradient *)

Lemma Kdiag_in_range (self : Coregionalize) (X : list Z) :
  has_shape (B self) (output_dim self) (output_dim self) ->
  in_range (output_dim self) X ->
  Kdiag self X = Ok (map (fun v => entry (B self) (Z.to_nat v) (Z.to_nat v)) X).
Proof.
  intros HB HX. rewrite (@Kdiag_wrap self X HB) by now apply in_range_wrap_range.
  f_equal. apply map_ext_in. intros v Hv.
  unfold in_range in HX. rewrite Forall_forall in HX.
  now rewrite wrap_in_range by auto.
Qed.

(** [sum_i dL_dKdiag[i] * Kdiag(X)[i]], grouped by channel. *)
Lemma diag_objective (Bm : matrix) (D : nat) (dL_dKdiag : vec) (X : list Z) :
  in_range D X -> length dL_dKdiag = length X ->
  Numpy.vdot dL_dKdiag
    (map (fun v => entry Bm (Z.to_nat v) (Z.to_nat v)) X) =
  bigsum D (fun a => (channel_sum dL_dKdiag X a * entry Bm a a)%Qc).
Proof.
  intros HX Hl. rewrite vdot_bigsum by (now rewrite length_map).
  rewrite Hl.
  rewrite (@bigsum_ext (length X) _ (fun i =>
     (nth i dL_dKdiag 0 *
      (fun a => entry Bm a a) (Z.to_nat (nth i X 0%Z)))%Qc))
    by (intros i Hi; now rewrite (nth_map_in _ _ 0%Z)).
  rewrite (@regroup D X (fun i => nth i dL_dKdiag 0%Qc) (fun a => entry Bm a a) HX).
  reflexivity.
Qed.

Lemma update_gradients_diag_entries (self : Coregionalize) (dL_dKdiag : vec)
    (X : list Z) (a k : nat) :
  well_shaped self -> length dL_dKdiag = length X ->
  a < output_dim self -> k < rank self ->
  nth a (kappa_gradient (update_gradients_diag self dL_dKdiag X)) 0%Qc =
    channel_sum dL_dKdiag X a /\
  entry (W_gradient (update_gradients_diag self dL_dKdiag X)) a k =
    (two * entry (W self) a k * channel_sum dL_dKdiag X a)%Qc.
Proof.
  intros [[HWl HWr] Hk] Hl Ha Hk'. simpl.
  set (s := map (fun i => vsum (Numpy.mask_select (Numpy.eq_mask X i) dL_dKdiag))
                (seq 0 (output_dim self))).
  assert (Hs : nth a s 0%Qc = channel_sum dL_dKdiag X a).
  { unfold s. rewrite (nth_map_seq _ 0 _ Ha). now apply masked_sum_channel. }
  split; [exact Hs|].
  unfold entry at 1.
  rewrite (nth_map_in _ _ ([], 0%Qc))
    by (rewrite length_combine; unfold s; rewrite length_map, length_seq; lia).
  rewrite combine_nth by (unfold s; rewrite length_map, length_seq; lia).
  cbn [fst snd].
  assert (Hlen : length (nth a (W self) []) = rank self).
  { rewrite Forall_forall in HWr. apply HWr, nth_In. lia. }
  rewrite (nth_map_in _ _ 0%Qc) by lia. now rewrite Hs.
Qed.

(* ------------------------------------------------------------------ *)
(** * B after the optimizer has moved a parameter *)

Lemma synced_entry (self : Coregionalize) (a b : nat) :
  well_shaped self -> synced self -> a < output_dim self -> b < output_dim self ->
  entry (B self) a b =
  (bigsum (rank self) (fun k => (entry (W self) a k * entry (W self) b k)%Qc)
   + (if Nat.eqb a b then nth a (kappa self) 0 else 0))%Qc.
Proof. intros Hw Hs Ha Hb. rewrite Hs. now apply B_entry. Qed.

Lemma well_shaped_set_W (self : Coregionalize) (Wm : matrix) :
  well_shaped self -> has_shape Wm (output_dim self) (rank self) ->
  well_shaped (set_W self Wm) /\ synced (set_W self Wm).
Proof. intros [_ Hk] HW. split; [split; assumption|reflexivity]. Qed.

Lemma well_shaped_set_kappa (self : Coregionalize) (k : vec) :
  well_shaped self -> length k = output_dim self ->
  well_shaped (set_kappa self k) /\ synced (set_kappa self k).
Proof. intros [HW _] Hk. split; [split; assumption|reflexivity]. Qed.

Lemma has_shape_W_plus (Wm : matrix) (D R r k : nat) (t : scalar) :
  has_shape Wm D R -> r < D -> has_shape (W_plus Wm r k t) D R.
Proof. intros HW Hr. unfold W_plus. now apply has_shape_upd2. Qed.

Lemma entry_W_plus (Wm : matrix) (D R r k a k' : nat) (t : scalar) :
  has_shape Wm D R -> r < D -> k < R ->
  entry (W_plus Wm r k t) a k' =
  (entry Wm a k' + (if (Nat.eqb a r && Nat.eqb k' k)%bool then t else 0))%Qc.
Proof.
  intros HW Hr Hk. unfold W_plus. rewrite (entry_upd2 _ _ _ HW Hr Hk).
  destruct (Nat.eqb_spec a r) as [->|]; simpl; [|ring].
  destruct (Nat.eqb_spec k' k) as [->|]; ring.
Qed.

Lemma nth_kappa_plus (kp : vec) (a a' : nat) (t : scalar) :
  a < length kp ->
  nth a' (kappa_plus kp a t) 0%Qc =
  (nth a' kp 0 + (if Nat.eqb a' a then t else 0))%Qc.
Proof.
  intros Ha. unfold kappa_plus. rewrite nth_upd by exact Ha.
  destruct (Nat.eqb_spec a' a) as [->|]; ring.
Qed.

(** The Gram sums of W with t added at [r, k]. *)
Lemma gram_W_plus (Wm : matrix) (D R r k a b : nat) (t : scalar) :
  has_shape Wm D R -> r < D -> k < R ->
  bigsum R (fun k' => (entry (W_plus Wm r k t) a k'
                       * entry (W_plus Wm r k t) b k')%Qc) =
  (bigsum R (fun k' => (entry Wm a k' * entry Wm b k')%Qc)
   + (if Nat.eqb a r then t * entry Wm b k else 0)
   + (if Nat.eqb b r then t * entry Wm a k else 0)
   + (if (Nat.eqb a r && Nat.eqb b r)%bool then t * t else 0))%Qc.
Proof.
  intros HW Hr Hk.
  rewrite (@bigsum_ext R _ (fun k' =>
    (entry Wm a k' * entry Wm b k'
     + (if Nat.eqb k' k
        then (if Nat.eqb a r then t * entry Wm b k' else 0)
             + (if Nat.eqb b r then t * entry Wm a k' else 0)
             + (if (Nat.eqb a r && Nat.eqb b r)%bool then t * t else 0)
        else 0))%Qc)).
  - rewrite bigsum_add.
    rewrite (bigsum_delta
      (fun k' => ((if Nat.eqb a r then t * entry Wm b k' else 0)
                  + (if Nat.eqb b r then t * entry Wm a k' else 0)
                  + (if (Nat.eqb a r && Nat.eqb b r)%bool then t * t else 0))%Qc)
      Hk).
    ring.
  - intros k' _. rewrite !(entry_W_plus _ _ _ HW Hr Hk).
    destruct (Nat.eqb a r), (Nat.eqb b r), (Nat.eqb k' k); simpl; ring.
Qed.

Lemma B_entry_W_plus (self : Coregionalize) (r k a b : nat) (t : scalar) :
  well_shaped self -> synced self ->
  r < output_dim self -> k < rank self ->
  a < output_dim self -> b < output_dim self ->
  entry (B (set_W self (W_plus (W self) r k t))) a b =
  (entry (B self) a b
   + (if Nat.eqb a r then t * entry (W self) b k else 0)
   + (if Nat.eqb b r then t * entry (W self) a k else 0)
   + (if (Nat.eqb a r && Nat.eqb b r)%bool then t * t else 0))%Qc.
Proof.
  intros Hw Hs Hr Hk Ha Hb. pose proof Hw as [HW Hkl].
  rewrite (synced_entry Hw Hs Ha Hb).
  unfold set_W. rewrite B_entry; cbn [output_dim rank W kappa]; auto.
  - rewrite (gram_W_plus _ _ _ HW Hr Hk). ring.
  - split; cbn [output_dim rank W kappa];
      [now apply has_shape_W_plus|exact Hkl].
Qed.

Lemma B_entry_kappa_plus (self : Coregionalize) (c a b : nat) (t : scalar) :
  well_shaped self -> synced self ->
  c < output_dim self -> a < output_dim self -> b < output_dim self ->
  entry (B (set_kappa self (kappa_plus (kappa self) c t))) a b =
  (entry (B self) a b
   + (if (Nat.eqb a b && Nat.eqb a c)%bool then t else 0))%Qc.
Proof.
  intros Hw Hs Hc Ha Hb. pose proof Hw as [HW Hkl].
  rewrite (synced_entry Hw Hs Ha Hb).
  unfold set_kappa. rewrite B_entry; cbn [output_dim rank W kappa]; auto.
  - rewrite nth_kappa_plus by lia.
    destruct (Nat.eqb a b), (Nat.eqb a c); simpl; ring.
  - split; cbn [output_dim rank W kappa]; [exact HW|].
    unfold kappa_plus. now rewrite length_upd.
Qed.

Lemma Qc_le_add_nonneg (s x : Qc) : (0 <= s)%Qc -> (x <= s + x)%Qc.
Proof.
  unfold Qcle, Qcplus, Q2Qc; cbn [this]. rewrite !Qred_correct. lra.
Qed.

(** X9: Kdiag(X)[i] is the squared norm of row X[i] of W plus kappa[X[i]], so it
    is never below kappa[X[i]]. *)
Theorem Kdiag_at_least_kappa (self : Coregionalize) (X : list Z) :
  well_shaped self -> synced self -> in_range (output_dim self) X ->
  exists d,
    Kdiag self X = Ok d /\
    forall i, i < length X ->
      let a := Z.to_nat (nth i X 0%Z) in
      nth i d 0%Qc =
        (bigsum (rank self) (fun k => entry (W self) a k * entry (W self) a k)
         + nth a (kappa self) 0)%Qc /\
      (nth a (kappa self) 0 <= nth i d 0)%Qc.
Proof.
  intros Hw Hs HX. pose proof (synced_shape Hw Hs) as HB.
  eexists. split; [now apply Kdiag_in_range|].
  intros i Hi a. rewrite (nth_map_in _ _ 0%Z) by exact Hi. fold a.
  assert (Ha : a < output_dim self) by (now apply in_range_nth).
  rewrite (synced_entry Hw Hs Ha Ha), Nat.eqb_refl.
  split; [reflexivity|].
  apply Qc_le_add_nonneg, bigsum_nonneg. intros k _. apply Qc_nonneg_square.
Qed.

(** X8: The diagonal gradients are the exact first-order coefficients of the
    objective [sum_i dL_dKdiag[i] * Kdiag(X)[i]]: adding t to kappa[a]
    changes it by t times the stored gradient of kappa[a]; adding t to
    W[a, k] changes it by t times the stored gradient of W[a, k], plus
    t^2 times the channel total. *)
Theorem update_gradients_diag_exact (self : Coregionalize) (dL_dKdiag : vec)
    (X : list Z) (a k : nat) (t : scalar) :
  well_shaped self -> synced self -> in_range (output_dim self) X ->
  length dL_dKdiag = length X ->
  a < output_dim self -> k < rank self ->
  let self' := update_gradients_diag self dL_dKdiag X in
  exists d d_kappa d_W,
    Kdiag self X = Ok d /\
    Kdiag (set_kappa self (kappa_plus (kappa self) a t)) X = Ok d_kappa /\
    Kdiag (set_W self (W_plus (W self) a k t)) X = Ok d_W /\
    Numpy.vdot dL_dKdiag d_kappa =
      (Numpy.vdot dL_dKdiag d + t * nth a (kappa_gradient self') 0)%Qc /\
    Numpy.vdot dL_dKdiag d_W =
      (Numpy.vdot dL_dKdiag d + t * entry (W_gradient self') a k
       + t * t * channel_sum dL_dKdiag X a)%Qc.
Proof.
  intros Hw Hs HX Hl Ha Hk self'.
  pose proof Hw as [HW Hkl].
  destruct (@well_shaped_set_kappa self (kappa_plus (kappa self) a t) Hw)
    as [Hwk Hsk]; [unfold kappa_plus; now rewrite length_upd|].
  destruct (@well_shaped_set_W self (W_plus (W self) a k t) Hw)
    as [HwW HsW]; [now apply has_shape_W_plus|].
  destruct (update_gradients_diag_entries dL_dKdiag X Hw Hl Ha Hk) as [Hgk HgW].
  do 3 eexists.
  split; [apply Kdiag_in_range; [now apply synced_shape|exact HX]|].
  split; [apply Kdiag_in_range; [now apply synced_shape|exact HX]|].
  split; [apply Kdiag_in_range; [now apply synced_shape|exact HX]|].
  rewrite !(diag_objective _ dL_dKdiag HX Hl).
  fold self' in Hgk, HgW. rewrite Hgk, HgW.
  split.
  - transitivity
      (bigsum (output_dim self) (fun c =>
         (channel_sum dL_dKdiag X c * entry (B self) c c
          + (if Nat.eqb c a then channel_sum dL_dKdiag X c * t else 0))%Qc)).
    + apply bigsum_ext. intros c Hc.
      rewrite (B_entry_kappa_plus t Hw Hs Ha Hc Hc), Nat.eqb_refl. simpl.
      destruct (Nat.eqb c a); ring.
    + rewrite bigsum_add.
      rewrite (bigsum_delta
        (fun c => (channel_sum dL_dKdiag X c * t)%Qc) Ha).
      ring.
  - transitivity
      (bigsum (output_dim self) (fun c =>
         (channel_sum dL_dKdiag X c * entry (B self) c c
          + (if Nat.eqb c a
             then channel_sum dL_dKdiag X c * t
                  * (two * entry (W self) a k + t)
             else 0))%Qc)).
    + apply bigsum_ext. intros c Hc.
      rewrite (B_entry_W_plus t Hw Hs Ha Hk Hc Hc).
      rewrite two_is_1_plus_1.
      destruct (Nat.eqb_spec c a) as [->|]; simpl; ring.
    + rewrite bigsum_add.
      rewrite (bigsum_delta
        (fun c => (channel_sum dL_dKdiag X c * t
                   * (two * entry (W self) a k + t))%Qc) Ha).
      ring.
Qed.

(* ------------------------------------------------------------------ *)
(** * The objective [np.sum(dL_dK * K)] *)







(* ------------------------------------------------------------------ *)
(** * K(X) as a covariance matrix *)




(* ------------------------------------------------------------------ *)
(** * What the reductions keep and what they drop *)

Lemma msum_bigsum (M : matrix) (r c : nat) :
  has_shape M r c ->
  msum M = bigsum r (fun a => bigsum c (fun b => entry M a b)).
Proof.
  intros HM. unfold msum. rewrite vsum_concat, vsum_bigsum, length_map.
  rewrite (proj1 HM). apply bigsum_ext. intros a Ha.
  rewrite (nth_map_in _ _ []) by (rewrite (proj1 HM); exact Ha).
  rewrite vsum_bigsum, (has_shape_row HM Ha). reflexivity.
Qed.

Lemma channel_sums_total (D : nat) (X : list Z) (f : vec) :
  in_range D X -> length f = length X ->
  bigsum D (fun a => channel_sum f X a) = vsum f.
Proof.
  intros HX Hl. rewrite vsum_bigsum, Hl.
  rewrite (@bigsum_ext (length X) (fun k => nth k f 0%Qc)
             (fun i => (nth i f 0 * (fun _ => 1) (Z.to_nat (nth i X 0%Z)))%Qc))
    by (intros i _; ring).
  rewrite (@regroup D X (fun i => nth i f 0%Qc) (fun _ => 1%Qc) HX).
  apply bigsum_ext. intros a _. rewrite channel_sum_bigsum. ring.
Qed.

Lemma scatter_sums_total (D : nat) (dL_dK : matrix) (X X2 : list Z) :
  in_range D X -> in_range D X2 ->
  has_shape dL_dK (length X) (length X2) ->
  bigsum D (fun a => bigsum D (fun b => scatter_sum dL_dK X X2 a b)) =
  msum dL_dK.
Proof.
  intros HX HX2 HdL. rewrite (msum_bigsum HdL).
  rewrite (@bigsum_ext (length X)
             (fun a => bigsum (length X2) (fun b => entry dL_dK a b))
             (fun i => bigsum (length X2) (fun j =>
                (entry dL_dK i j *
                 (fun _ _ => 1) (Z.to_nat (nth i X 0%Z))
                                (Z.to_nat (nth j X2 0%Z)))%Qc)))
    by (intros i _; apply bigsum_ext; intros j _; ring).
  rewrite (@regroup2 D X X2 (entry dL_dK) (fun _ _ => 1%Qc) HX HX2).
  apply bigsum_ext. intros a _. apply bigsum_ext. intros b _.
  rewrite scatter_sum_bigsum. ring.
Qed.

(** X11: On in-range labels the reductions lose nothing: the entries of the
    reduced matrix add up to the sum of all entries of dL_dK, and the
    gradient of kappa stored by [update_gradients_diag] adds up to the sum
    of dL_dKdiag. *)
Theorem reductions_conserve_the_total (self : Coregionalize) (dL_dK : matrix)
    (dL_dKdiag : vec) (X X2 : list Z) :
  let D := output_dim self in
  well_shaped self -> synced self ->
  in_range D X -> in_range D X2 ->
  has_shape dL_dK (length X) (length X2) ->
  length dL_dKdiag = length X ->
  (exists small,
     _gradient_reduce_numpy self dL_dK X X2 = Ok small /\
     msum small = msum dL_dK) /\
  vsum (kappa_gradient (update_gradients_diag self dL_dKdiag X)) = vsum dL_dKdiag.
Proof.
  intros D Hw Hs HX HX2 HdL Hl. pose proof (synced_shape Hw Hs) as HB. split.
  - destruct (@gradient_reduce_numpy_correct self dL_dK X X2 HB HdL)
      as [small [Hn [Hsh Hent]]].
    exists small. split; [exact Hn|].
    rewrite (msum_bigsum Hsh), <- (scatter_sums_total HX HX2 HdL).
    rewrite bigsum_exchange. apply bigsum_ext. intros a Ha.
    apply bigsum_ext. intros b Hb. now apply Hent.
  - simpl. rewrite <- (channel_sums_total dL_dKdiag HX Hl).
    unfold bigsum. f_equal. apply map_ext_in. intros a _.
    now apply masked_sum_channel.
Qed.

Lemma foreign_label_never_matches (D : nat) (v : Z) (a : nat) :
  (v < 0 \/ Z.of_nat D <= v)%Z -> a < D -> Z.eqb v (Z.of_nat a) = false.
Proof. intros Hv Ha. apply Z.eqb_neq. lia. Qed.

Lemma foreign_labels_nth (D : nat) (X : list Z) (i : nat) :
  Forall (fun v => (v < 0 \/ Z.of_nat D <= v)%Z) X -> i < length X ->
  (nth i X 0 < 0 \/ Z.of_nat D <= nth i X 0)%Z.
Proof.
  intros HX Hi. rewrite Forall_forall in HX. apply HX, nth_In, Hi.
Qed.

(** X12: Labels outside [0, output_dim) are not an error for the numpy
    reduction and for [update_gradients_diag]: they match no channel and
    their observations are dropped.  For negative labels in
    [-output_dim, 0) this differs from the gather of [_K_numpy], which
    accepts them and reads B at output_dim + v: K depends on these
    observations, the gradients do not. *)
Theorem negative_labels_gathered_but_not_reduced (self : Coregionalize)
    (dL_dK : matrix) (dL_dKdiag : vec) (X : list Z) :
  let D := output_dim self in
  well_shaped self -> synced self ->
  Forall (fun v => (- Z.of_nat D <= v < 0)%Z) X ->
  has_shape dL_dK (length X) (length X) ->
  length dL_dKdiag = length X ->
  _K_numpy self X None =
    Ok (map (fun x => map (fun x2 =>
          entry (B self) (Z.to_nat (Z.of_nat D + x)) (Z.to_nat (Z.of_nat D + x2)))
          X) X) /\
  (exists small,
     _gradient_reduce_numpy self dL_dK X X = Ok small /\
     forall a b, a < D -> b < D -> entry small a b = 0%Qc) /\
  (forall a, a < D ->
     nth a (kappa_gradient (update_gradients_diag self dL_dKdiag X)) 0%Qc = 0%Qc).
Proof.
  intros D Hw Hs HX HdL Hl. pose proof (synced_shape Hw Hs) as HB.
  assert (Hforeign : Forall (fun v => (v < 0 \/ Z.of_nat D <= v)%Z) X)
    by (revert HX; apply Forall_impl; intros; lia).
  split; [|split].
  - unfold _K_numpy.
    rewrite (@fancy_index2_wrap (B self) D X X HB)
      by (revert HX; apply Forall_impl; intros; lia).
    f_equal. rewrite Forall_forall in HX.
    apply map_ext_in. intros x Hx. apply map_ext_in. intros x2 Hx2.
    unfold wrap. destruct (Z.ltb_spec x 0); [|specialize (HX x Hx); lia].
    destruct (Z.ltb_spec x2 0); [|specialize (HX x2 Hx2); lia]. reflexivity.
  - destruct (@gradient_reduce_numpy_correct self dL_dK X X HB HdL)
      as [small [Hn [Hsh Hent]]].
    exists small. split; [exact Hn|]. intros a b Ha Hb.
    rewrite (Hent a b Ha Hb), scatter_sum_bigsum.
    rewrite (@bigsum_ext (length X) _ (fun _ => 0%Qc)); [apply bigsum_zero|].
    intros i Hi.
    rewrite (@bigsum_ext (length X) _ (fun _ => 0%Qc)); [apply bigsum_zero|].
    intros j _.
    now rewrite (@foreign_label_never_matches D _ b
                   (@foreign_labels_nth D X i Hforeign Hi) Hb).
  - intros a Ha. simpl. rewrite (nth_map_seq _ 0 _ Ha). simpl.
    rewrite masked_sum_channel by exact Hl. rewrite channel_sum_bigsum.
    rewrite (@bigsum_ext (length X) _ (fun _ => 0%Qc)); [apply bigsum_zero|].
    intros i Hi.
    now rewrite (@foreign_label_never_matches D _ a
                   (@foreign_labels_nth D X i Hforeign Hi) Ha).
Qed.

(* ------------------------------------------------------------------ *)
(** * The inlined gather outside the contract *)









(* ------------------------------------------------------------------ *)
(** * The further theorems at concrete kernels *)

Lemma K_flag_transition_witness :
  K (always true) junk kernel_3 [0%Z; 1%Z] None (fresh_process false) =
  (_K_numpy kernel_3 [0%Z; 1%Z] None, fresh_process false).
Proof.
  destruct (K_flag_transition (always true) junk kernel_3 [0%Z; 1%Z] None
              (fresh_process false)) as [_ [_ H]].
  specialize (H eq_refl).
  destruct (K (always true) junk kernel_3 [0%Z; 1%Z] None (fresh_process false))
    as [r p'] eqn:E.
  simpl in H. subst p'.
  apply (f_equal fst) in E. simpl in E. subst r. reflexivity.
Defined.

Lemma update_gradients_full_flag_transition_witness :
  weave_working (snd (update_gradients_full (always false) kernel_1
                        (np_array [[q 1]]) [0%Z] None (fresh_process true)))
    = false /\
  inline_calls (snd (update_gradients_full (always false) kernel_1
                       (np_array [[q 1]]) [0%Z] None (fresh_process true))) = 2.
Proof.
  destruct (update_gradients_full_flag_transition (always false) kernel_1
              (np_array [[q 1]]) [0%Z] None (fresh_process true))
    as [H1 [H2 _]].
  split; [exact H1|exact H2].
Defined.

Lemma flag_downgrade_is_permanent_witness :
  snd (run_calls (always true) junk
         [Call_K [0%Z] None;
          Call_update_gradients_full (np_array [[q 1]]) [0%Z] None;
          Call_K [1%Z] (Some [2%Z])]
         (kernel_3, fresh_process false)) = fresh_process false.
Proof.
  apply (proj1 (proj2 (flag_downgrade_is_permanent (always true) junk
           [Call_K [0%Z] None;
            Call_update_gradients_full (np_array [[q 1]]) [0%Z] None;
            Call_K [1%Z] (Some [2%Z])]
           (kernel_3, fresh_process false)))).
  reflexivity.
Defined.


Lemma update_gradients_full_retry_witness :
  fst (update_gradients_full (always false) kernel_3
         (np_array [[q 1; q 2]; [q 3; q 4]]) [0%Z; 2%Z] None (fresh_process true))
    = Raise WeaveError /\
  exists self',
    fst (update_gradients_full (always false) kernel_3
           (np_array [[q 1; q 2]; [q 3; q 4]]) [0%Z; 2%Z] None
           (snd (update_gradients_full (always false) kernel_3
                   (np_array [[q 1; q 2]; [q 3; q 4]]) [0%Z; 2%Z] None
                   (fresh_process true)))) = Ok self'.
Proof.
  destruct (@update_gradients_full_retry (always false) kernel_3
              (np_array [[q 1; q 2]; [q 3; q 4]]) [0%Z; 2%Z] None
              (fresh_process true) (fresh_process false))
    as [H1 [_ [_ H4]]].
  - well_shaped_now.
  - reflexivity.
  - in_range_now.
  - in_range_now.
  - shape_now.
  - reflexivity.
  - reflexivity.
  - reflexivity.
  - reflexivity.
  - split; [exact H1|exact H4].
Defined.

Lemma Kdiag_at_least_kappa_witness :
  exists d,
    Kdiag kernel_3 [2%Z; 0%Z] = Ok d /\
    (nth 2 (kappa kernel_3) 0 <= nth 0 d 0)%Qc.
Proof.
  destruct (@Kdiag_at_least_kappa kernel_3 [2%Z; 0%Z]) as [d [Hd Hi]].
  - well_shaped_now.
  - reflexivity.
  - in_range_now.
  - exists d. split; [exact Hd|].
    exact (proj2 (Hi 0 (Nat.lt_0_succ 1))).
Defined.

Lemma update_gradients_diag_exact_witness :
  exists d d_kappa d_W,
    Kdiag kernel_2 [0%Z; 1%Z; 1%Z] = Ok d /\
    Kdiag (set_kappa kernel_2 (kappa_plus (kappa kernel_2) 1 (q 3)))
          [0%Z; 1%Z; 1%Z] = Ok d_kappa /\
    Kdiag (set_W kernel_2 (W_plus (W kernel_2) 1 0 (q 3)))
          [0%Z; 1%Z; 1%Z] = Ok d_W /\
    Numpy.vdot [q 1; q 10; q 100] d_kappa =
      (Numpy.vdot [q 1; q 10; q 100] d
       + q 3 * nth 1 (kappa_gradient
                        (update_gradients_diag kernel_2 [q 1; q 10; q 100]
                           [0%Z; 1%Z; 1%Z])) 0)%Qc /\
    Numpy.vdot [q 1; q 10; q 100] d_W =
      (Numpy.vdot [q 1; q 10; q 100] d
       + q 3 * entry (W_gradient
                        (update_gradients_diag kernel_2 [q 1; q 10; q 100]
                           [0%Z; 1%Z; 1%Z])) 1 0
       + q 3 * q 3 * channel_sum [q 1; q 10; q 100] [0%Z; 1%Z; 1%Z] 1)%Qc.
Proof.
  apply (@update_gradients_diag_exact kernel_2 [q 1; q 10; q 100]
           [0%Z; 1%Z; 1%Z] 1 0 (q 3)).
  - well_shaped_now.
  - reflexivity.
  - in_range_now.
  - reflexivity.
  - simpl; lia.
  - simpl; lia.
Defined.




Lemma reductions_conserve_the_total_witness :
  (exists small,
     _gradient_reduce_numpy kernel_3 [[q 1; q 2; q 3]; [q 4; q 5; q 6]]
       [0%Z; 2%Z] [1%Z; 1%Z; 0%Z] = Ok small /\
     msum small = msum [[q 1; q 2; q 3]; [q 4; q 5; q 6]]) /\
  vsum (kappa_gradient (update_gradients_diag kernel_3 [q 1; q 10] [0%Z; 2%Z]))
    = vsum [q 1; q 10].
Proof.
  apply (@reductions_conserve_the_total kernel_3
           [[q 1; q 2; q 3]; [q 4; q 5; q 6]] [q 1; q 10]
           [0%Z; 2%Z] [1%Z; 1%Z; 0%Z]).
  - well_shaped_now.
  - reflexivity.
  - in_range_now.
  - in_range_now.
  - shape_now.
  - reflexivity.
Defined.

Lemma negative_labels_gathered_but_not_reduced_witness :
  _K_numpy kernel_3 [(-1)%Z; (-3)%Z] None =
    Ok [[entry (B kernel_3) 2 2; entry (B kernel_3) 2 0];
        [entry (B kernel_3) 0 2; entry (B kernel_3) 0 0]] /\
  (exists small,
     _gradient_reduce_numpy kernel_3 [[q 1; q 2]; [q 3; q 4]]
       [(-1)%Z; (-3)%Z] [(-1)%Z; (-3)%Z] = Ok small /\
     forall a b, a < 3 -> b < 3 -> entry small a b = 0%Qc).
Proof.
  destruct (@negative_labels_gathered_but_not_reduced kernel_3
              [[q 1; q 2]; [q 3; q 4]] [q 1; q 10] [(-1)%Z; (-3)%Z])
    as [HK [Hred _]].
  - well_shaped_now.
  - reflexivity.
  - repeat (apply Forall_cons; [cbn; lia|]). apply Forall_nil.
  - shape_now.
  - reflexivity.
  - split; [exact HK|exact Hred].
Defined.


(* ------------------------------------------------------------------ *)
(** * A kernel as constructed *)

Lemma init_well_shaped (random_W : nat -> nat -> scalar)
    (input_dim D R : nat) (W0 : option matrix) (kappa0 : option vec)
    (self : Coregionalize) :
  snd (__init__ random_W input_dim D R W0 kappa0) = Ok self ->
  output_dim self = D /\ well_shaped self /\
  (kappa0 = None -> kappa self = repeat half D).
Proof.
  unfold __init__. cbn [snd]. intros Hself.
  assert (HW : exists Wm, has_shape Wm D R /\
            match W0 with
            | Some W => if shape_eqb W D R then Ok W else Raise AssertionError
            | None => Ok (map (fun i => map (random_W i) (seq 0 R)) (seq 0 D))
            end = Ok Wm).
  { destruct W0 as [Wm|].
    - destruct (shape_eqb Wm D R) eqn:E; [|discriminate Hself].
      exists Wm. split; [now apply shape_eqb_spec|reflexivity].
    - eexists. split; [apply has_shape_random|reflexivity]. }
  destruct HW as [Wm [HWm HW]]. rewrite HW in Hself. cbn [bind] in Hself.
  destruct kappa0 as [k|]; cbn [bind] in Hself.
  - destruct (Nat.eqb_spec (length k) D) as [Hk|Hk]; [|discriminate Hself].
    apply Ok_inj in Hself. subst self. unfold well_shaped. cbn.
    repeat split; try assumption; try apply HWm. discriminate.
  - apply Ok_inj in Hself. subst self. unfold well_shaped. cbn [output_dim rank W kappa].
    rewrite default_kappa.
    repeat split; try apply HWm; apply repeat_length.
Qed.

(** X15: A kernel constructed without kappa has variances of at least 0.5: after
    [__init__] (with any accepted W, or a drawn one) and the first
    [parameters_changed], Kdiag returns normally on in-range labels and each
    of its entries is at least 0.5. *)
Theorem default_kernel_variance_at_least_half (random_W : nat -> nat -> scalar)
    (input_dim D R : nat) (W0 : option matrix) (self : Coregionalize)
    (X : list Z) :
  snd (__init__ random_W input_dim D R W0 None) = Ok self ->
  in_range D X ->
  exists d,
    Kdiag (parameters_changed self) X = Ok d /\
    length d = length X /\
    forall i, i < length X -> (half <= nth i d 0)%Qc.
Proof.
  intros Hinit HX.
  destruct (init_well_shaped _ _ _ _ _ _ Hinit) as [HD [Hw Hk]].
  specialize (Hk eq_refl).
  set (self1 := parameters_changed self).
  assert (Hw1 : well_shaped self1) by exact Hw.
  assert (Hs1 : synced self1) by reflexivity.
  assert (HX1 : in_range (output_dim self1) X) by (simpl; now rewrite HD).
  eexists. split; [apply Kdiag_in_range; [now apply synced_shape|exact HX1]|].
  split; [now rewrite length_map|].
  intros i Hi. rewrite (nth_map_in _ _ 0%Z) by exact Hi.
  assert (Ha : Z.to_nat (nth i X 0%Z) < output_dim self1)
    by (now apply in_range_nth).
  rewrite (synced_entry Hw1 Hs1 Ha Ha), Nat.eqb_refl.
  assert (Hhalf : nth (Z.to_nat (nth i X 0%Z)) (kappa self1) 0%Qc = half).
  { change (kappa self1) with (kappa self). rewrite Hk.
    rewrite (nth_indep _ 0%Qc half)
      by (rewrite repeat_length; simpl in Ha; now rewrite <- HD).
    apply nth_repeat. }
  rewrite Hhalf.
  apply Qc_le_add_nonneg, bigsum_nonneg. intros k _. apply Qc_nonneg_square.
Qed.

Lemma default_kernel_variance_at_least_half_witness :
  exists self d,
    snd (__init__ (fun i j => q (Z.of_nat (i + j))) 1 3 2 None None) = Ok self /\
    Kdiag (parameters_changed self) [0%Z; 2%Z] = Ok d /\
    (half <= nth 1 d 0)%Qc.
Proof.
  eexists.
  destruct (@default_kernel_variance_at_least_half
              (fun i j => q (Z.of_nat (i + j))) 1 3 2 None _ [0%Z; 2%Z] eq_refl)
    as [d [Hd [_ Hi]]].
  - in_range_now.
  - exists d. split; [reflexivity|]. split; [exact Hd|].
    apply Hi. simpl; lia.
Defined.

(* ------------------------------------------------------------------ *)
(** * The inlined reduction outside the contract *)










(* ------------------------------------------------------------------ *)
(** * The inlined reduction and the layout of dL_dK *)


